(** * Hackflight attitude core: stabilizer (stabilize.hpp) and mixer (mixer.hpp)

    A shallow embedding of the two classes of [src/include] and the
    properties stated about them.  Fixed-width integers are integers of [Z]
    with their wrap-around written out, the C [float] is IEEE binary32 as
    given by the Standard Library's [SpecFloat], C arrays are total maps from
    the index, and the member functions of [Stabilize] thread the object
    through a small state monad. *)

From Stdlib Require Import ZArith Lia Bool List.
From Stdlib Require Import Floats.SpecFloat.
Import ListNotations.

Local Open Scope Z_scope.

(** ** Fixed-width integers *)

(** Conversion of an integer to a signed [w]-bit type: reduction modulo
    [2^w] into [[-2^(w-1), 2^(w-1))]. *)
Definition wrap (w : Z) (z : Z) : Z := (z + 2 ^ (w - 1)) mod 2 ^ w - 2 ^ (w - 1).

Definition to_int16 (z : Z) : Z := wrap 16 z.
Definition to_int32 (z : Z) : Z := wrap 32 z.

Definition in_int16 (z : Z) : Prop := -32768 <= z <= 32767.
Definition in_int32 (z : Z) : Prop := -2147483648 <= z <= 2147483647.

(** [int32_t] arithmetic.  Signed overflow is undefined in C++; the model
    takes the two's complement result every target of the firmware gives. *)
Definition add32 (a b : Z) : Z := to_int32 (a + b).
Definition sub32 (a b : Z) : Z := to_int32 (a - b).
Definition mul32 (a b : Z) : Z := to_int32 (a * b).

(** Modelled from the spec: [constrain] of common.hpp, which is not among the
    sources; the spec calls it the shared numeric-range-clamp utility. *)
Definition constrain (val lo hi : Z) : Z :=
  if val <? lo then lo else if val >? hi then hi else val.

(** ** The C float: IEEE binary32 *)

Definition float : Type := spec_float.

Definition prec32 : Z := 24.
Definition emax32 : Z := 128.

Definition fadd : float -> float -> float := SFadd prec32 emax32.
Definition fsub : float -> float -> float := SFsub prec32 emax32.
Definition fmul : float -> float -> float := SFmul prec32 emax32.
Definition fdiv : float -> float -> float := SFdiv prec32 emax32.

(** Integer to float conversion, rounding to nearest even. *)
Definition float_of_int (z : Z) : float := binary_normalize prec32 emax32 z 0 false.

(** The integer part of a finite float (truncation toward zero). *)
Definition ftrunc (s : bool) (m : positive) (e : Z) : Z :=
  cond_Zopp s (Z.shiftl (Zpos m) e).

(** [(int32_t) f].  Outside the range of [int32_t], and for NaN, the
    conversion is undefined in C++; the model takes the result of the
    hardware conversion instruction, the most negative integer. *)
Definition int32_of_float (f : float) : Z :=
  match f with
  | S754_zero _ => 0
  | S754_finite s m e =>
      let z := ftrunc s m e in
      if (-2147483648 <=? z) && (z <=? 2147483647) then z else -2147483648
  | S754_infinity _ | S754_nan => -2147483648
  end.

(** [(int16_t) f]: converted as above, the low 16 bits kept. *)
Definition int16_of_float (f : float) : Z := to_int16 (int32_of_float f).

Definition is_finite (f : float) : bool :=
  match f with
  | S754_zero _ | S754_finite _ _ _ => true
  | S754_infinity _ | S754_nan => false
  end.

Definition is_zero (f : float) : bool :=
  match f with
  | S754_zero _ => true
  | _ => false
  end.

(** ** Arrays *)

(** A C array is a total map from the index; the code only ever uses
    constant indices below the declared length. *)
Definition array (A : Type) : Type := nat -> A.

Definition upd {A : Type} (a : array A) (i : nat) (v : A) : array A :=
  fun j => if Nat.eqb j i then v else a j.

Definition zeros : array Z := fun _ => 0.

(** Modelled from the spec: the axis and demand enumerations of rc.hpp, which
    is not among the sources.  The code reads the stick demand of an axis
    as [rcCommand[axis]], so the two enumerations agree on roll, pitch and
    yaw, and the throttle demand takes the remaining index. *)
Definition AXIS_ROLL : nat := 0.
Definition AXIS_PITCH : nat := 1.
Definition AXIS_YAW : nat := 2.

Definition DEMAND_ROLL : nat := 0.
Definition DEMAND_PITCH : nat := 1.
Definition DEMAND_YAW : nat := 2.
Definition DEMAND_THROTTLE : nat := 3.

(** ** Configuration *)

(** Modelled from the spec: the configuration structures of config.hpp, which
    is not among the sources.  The gains are floats (the simulator sets them
    from float literals), the trims and the inclination bound are
    integers. *)
Record PidConfig : Type := {
  levelP : float;
  ratePitchrollP : float;
  ratePitchrollI : float;
  ratePitchrollD : float;
  yawP : float;
  yawI : float;
  softwareTrim : array Z
}.

Record ImuConfig : Type := {
  maxAngleInclination : Z
}.

Record PwmConfig : Type := {
  min : Z;
  max : Z
}.

(** ** Stabilize *)

Module Stabilize.

(** The data members of the class ([board] is only a debugging handle). *)
Record t : Type := mk {
  axisPID : array Z;        (* int16_t axisPID[3] *)
  lastGyro : array Z;       (* int16_t lastGyro[2] *)
  delta1 : array Z;         (* int32_t delta1[2] *)
  delta2 : array Z;         (* int32_t delta2[2] *)
  errorGyroI : array Z;     (* int32_t errorGyroI[3] *)
  errorAngleI : array Z;    (* int32_t errorAngleI[2] *)
  imuConfig : ImuConfig;
  pidConfig : PidConfig
}.

(** Member functions run in a state monad over the object. *)
Definition M (A : Type) : Type := t -> A * t.

Definition ret {A : Type} (a : A) : M A := fun s => (a, s).

Definition bind {A B : Type} (c : M A) (k : A -> M B) : M B :=
  fun s => let (a, s') := c s in k a s'.

Definition gets {A : Type} (f : t -> A) : M A := fun s => (f s, s).

Definition modify (f : t -> t) : M unit := fun s => (tt, f s).

Notation "x <- c ;; k" := (bind c (fun x => k))
  (at level 61, c at next level, right associativity).
Notation "c ;;; k" := (bind c (fun _ => k))
  (at level 61, right associativity).

Definition set_axisPID (i : nat) (v : Z) : M unit :=
  modify (fun s => mk (upd (axisPID s) i v) (lastGyro s) (delta1 s) (delta2 s)
                      (errorGyroI s) (errorAngleI s) (imuConfig s) (pidConfig s)).

Definition set_lastGyro (i : nat) (v : Z) : M unit :=
  modify (fun s => mk (axisPID s) (upd (lastGyro s) i v) (delta1 s) (delta2 s)
                      (errorGyroI s) (errorAngleI s) (imuConfig s) (pidConfig s)).

Definition set_delta1 (i : nat) (v : Z) : M unit :=
  modify (fun s => mk (axisPID s) (lastGyro s) (upd (delta1 s) i v) (delta2 s)
                      (errorGyroI s) (errorAngleI s) (imuConfig s) (pidConfig s)).

Definition set_delta2 (i : nat) (v : Z) : M unit :=
  modify (fun s => mk (axisPID s) (lastGyro s) (delta1 s) (upd (delta2 s) i v)
                      (errorGyroI s) (errorAngleI s) (imuConfig s) (pidConfig s)).

Definition set_errorGyroI (i : nat) (v : Z) : M unit :=
  modify (fun s => mk (axisPID s) (lastGyro s) (delta1 s) (delta2 s)
                      (upd (errorGyroI s) i v) (errorAngleI s) (imuConfig s) (pidConfig s)).

Definition set_errorAngleI (i : nat) (v : Z) : M unit :=
  modify (fun s => mk (axisPID s) (lastGyro s) (delta1 s) (delta2 s)
                      (errorGyroI s) (upd (errorAngleI s) i v) (imuConfig s) (pidConfig s)).

Definition set_configs (pid : PidConfig) (imu : ImuConfig) : M unit :=
  modify (fun s => mk (axisPID s) (lastGyro s) (delta1 s) (delta2 s)
                      (errorGyroI s) (errorAngleI s) imu pid).

(** [Stabilize::resetIntegral] *)
Definition resetIntegral : M unit :=
  set_errorGyroI AXIS_ROLL 0 ;;;
  set_errorGyroI AXIS_PITCH 0 ;;;
  set_errorGyroI AXIS_YAW 0 ;;;
  set_errorAngleI AXIS_ROLL 0 ;;;
  set_errorAngleI AXIS_PITCH 0.

(** [Stabilize::init]: the configurations are copied in, the history of
    the D term is zeroed for both levelled axes, the integrals are reset. *)
Definition init (_pidConfig : PidConfig) (_imuConfig : ImuConfig) : M unit :=
  set_configs _pidConfig _imuConfig ;;;
  fold_right (fun axis k =>
                set_lastGyro axis 0 ;;; set_delta1 axis 0 ;;; set_delta2 axis 0 ;;; k)
             (ret tt) [0%nat; 1%nat] ;;;
  resetIntegral.

(** [Stabilize::computeITermGyro] *)
Definition computeITermGyro (rateP rateI : float) (rcCommand gyroADC : array Z)
           (axis : nat) : M Z :=
  let error :=
    int32_of_float (fsub (fmul (float_of_int (rcCommand axis)) rateP)
                         (float_of_int (gyroADC axis))) in
  (* Avoid integral windup *)
  acc <- gets (fun s => errorGyroI s axis) ;;
  set_errorGyroI axis (constrain (add32 acc error) (-16000) 16000) ;;;
  (if (Z.abs (gyroADC axis) >? 640)
      || (Nat.eqb axis AXIS_YAW && (Z.abs (rcCommand axis) >? 100))
   then set_errorGyroI axis 0
   else ret tt) ;;;
  acc' <- gets (fun s => errorGyroI s axis) ;;
  ret (Z.shiftr (int32_of_float (fmul (float_of_int acc') rateI)) 6).

(** The conversions of [Stabilize::computePid]: [PTerm -= gyro * rateP] is
    computed in float and stored back into the [int32_t]. *)
Definition pidPTerm (rateP : float) (PTerm : Z) (gyroADC : array Z) (axis : nat) : Z :=
  int32_of_float (fsub (float_of_int PTerm)
                       (fmul (float_of_int (gyroADC axis)) rateP)).

(** [Stabilize::computePid]: the [int32_t] sum is returned as [int16_t]. *)
Definition computePid (rateP : float) (PTerm ITerm DTerm : Z) (gyroADC : array Z)
           (axis : nat) : M Z :=
  let PTerm := pidPTerm rateP PTerm gyroADC axis in
  trim <- gets (fun s => softwareTrim (pidConfig s) axis) ;;
  ret (to_int16 (add32 (sub32 (add32 PTerm ITerm) DTerm) trim)).

(** Lines 103 to 127 of [Stabilize::computeLevelPid]: everything up to the
    final call of [computePid], returning the three terms handed to it. *)
Definition computeLevelTerms (rcCommand gyroADC : array Z) (eulerAngles : array float)
           (axis : nat) : M (Z * Z * Z) :=
  pid <- gets pidConfig ;;
  imu <- gets imuConfig ;;
  ITermGyro <- computeITermGyro (ratePitchrollP pid) (ratePitchrollI pid)
                                rcCommand gyroADC axis ;;
  (* max inclination *)
  let errorAngle :=
    int32_of_float
      (fsub (float_of_int (constrain (2 * rcCommand axis)
                                     (- maxAngleInclination imu)
                                     (maxAngleInclination imu)))
            (fmul (float_of_int 10) (eulerAngles axis))) in
  let PTermAccel := int32_of_float (fmul (float_of_int errorAngle) (levelP pid)) in
  (* Avoid integral windup *)
  acc <- gets (fun s => errorAngleI s axis) ;;
  set_errorAngleI axis (constrain (add32 acc errorAngle) (-10000) 10000) ;;;
  let prop := Z.max (Z.abs (rcCommand DEMAND_PITCH)) (Z.abs (rcCommand DEMAND_ROLL)) in
  let PTerm :=
    Z.quot (add32 (mul32 PTermAccel (500 - prop)) (mul32 (rcCommand axis) prop)) 500 in
  let ITerm := Z.quot (mul32 ITermGyro prop) 500 in
  last <- gets (fun s => lastGyro s axis) ;;
  let delta := gyroADC axis - last in
  set_lastGyro axis (gyroADC axis) ;;;
  d1 <- gets (fun s => delta1 s axis) ;;
  d2 <- gets (fun s => delta2 s axis) ;;
  let deltaSum := add32 (add32 d1 d2) delta in
  set_delta2 axis d1 ;;;
  set_delta1 axis delta ;;;
  let DTerm := int32_of_float (fmul (float_of_int deltaSum) (ratePitchrollD pid)) in
  ret (PTerm, ITerm, DTerm).

(** [Stabilize::computeLevelPid] *)
Definition computeLevelPid (rcCommand gyroADC : array Z) (eulerAngles : array float)
           (axis : nat) : M Z :=
  terms <- computeLevelTerms rcCommand gyroADC eulerAngles axis ;;
  let '(PTerm, ITerm, DTerm) := terms in
  pid <- gets pidConfig ;;
  computePid (ratePitchrollP pid) PTerm ITerm DTerm gyroADC axis.

(** [Stabilize::update] *)
Definition update (rcCommand gyroADC : array Z) (eulerAngles : array float) : M unit :=
  (* Pitch, roll use leveling based on Euler angles *)
  r <- computeLevelPid rcCommand gyroADC eulerAngles AXIS_ROLL ;;
  set_axisPID AXIS_ROLL r ;;;
  p <- computeLevelPid rcCommand gyroADC eulerAngles AXIS_PITCH ;;
  set_axisPID AXIS_PITCH p ;;;
  (* For yaw, P term comes directly from RC command, and D term is zero *)
  pid <- gets pidConfig ;;
  ITermGyroYaw <- computeITermGyro (yawP pid) (yawI pid) rcCommand gyroADC AXIS_YAW ;;
  y <- computePid (yawP pid) (rcCommand AXIS_YAW) ITermGyroYaw 0 gyroADC AXIS_YAW ;;
  set_axisPID AXIS_YAW y ;;;
  (* Prevent "yaw jump" during yaw correction *)
  y' <- gets (fun s => axisPID s AXIS_YAW) ;;
  set_axisPID AXIS_YAW
    (to_int16 (constrain y' (-100 - Z.abs (rcCommand DEMAND_YAW))
                            (100 + Z.abs (rcCommand DEMAND_YAW)))).

(** The object after a call, and the call's value. *)
Definition exec {A : Type} (c : M A) (s : t) : t := snd (c s).
Definition eval {A : Type} (c : M A) (s : t) : A := fst (c s).

End Stabilize.

(** ** Mixer *)

(** Modelled from the spec: the RC source of rc.hpp, which is not among the
    sources: a four-element stick-demand array and a boolean query telling
    whether the throttle stick is at its minimum. *)
Record RC : Type := {
  command : array Z;          (* int16_t command[4] *)
  throttleIsDown : bool
}.

Module Mixer.

(** Custom mixer data per motor *)
Record motorMixer_t : Type := {
  throttle : float;
  roll : float;
  pitch : float;
  yaw : float
}.

(** The data members of the class; the two collaborators it points to are
    handed to [update] as arguments. *)
Record t : Type := mk {
  motorsDisarmed : array Z;            (* int16_t motorsDisarmed[4], set by MSP *)
  pwmConfig : PwmConfig;
  mixerQuadX : array motorMixer_t
}.

Definition plus1 : float := S754_finite false 8388608 (-23).
Definition minus1 : float := S754_finite true 8388608 (-23).

Definition quadX : array motorMixer_t :=
  fun i =>
    match i with
    | 0%nat => Build_motorMixer_t plus1 minus1 plus1 minus1    (* right rear *)
    | 1%nat => Build_motorMixer_t plus1 minus1 minus1 plus1    (* right front *)
    | 2%nat => Build_motorMixer_t plus1 plus1 plus1 plus1      (* left rear *)
    | _ => Build_motorMixer_t plus1 plus1 minus1 minus1        (* left front *)
    end.

(** [Mixer::init] *)
Definition init (_pwmConfig : PwmConfig) (m : t) : t :=
  let disarmed :=
    fold_left (fun d i => upd d i (to_int16 (min _pwmConfig)))
              (seq 0 4) (motorsDisarmed m) in
  mk disarmed _pwmConfig quadX.

(** The float expression of the first loop, for motor [i]. *)
Definition mix (m : t) (rc : RC) (stabilize : Stabilize.t) (i : nat) : float :=
  fsub
    (fadd
       (fadd (fmul (float_of_int (command rc DEMAND_THROTTLE)) (throttle (mixerQuadX m i)))
             (fmul (float_of_int (Stabilize.axisPID stabilize AXIS_PITCH))
                   (pitch (mixerQuadX m i))))
       (fmul (float_of_int (Stabilize.axisPID stabilize AXIS_ROLL))
             (roll (mixerQuadX m i))))
    (fmul (float_of_int (Stabilize.axisPID stabilize AXIS_YAW)) (yaw (mixerQuadX m i))).

(** First loop: the raw mixes, each cast to [int16_t]. *)
Definition rawMotors (m : t) (rc : RC) (stabilize : Stabilize.t) : array Z :=
  fold_left (fun motors i => upd motors i (int16_of_float (mix m rc stabilize i)))
            (seq 0 4) zeros.

(** Second loop: the largest raw mix. *)
Definition maxMotor (motors : array Z) : Z :=
  fold_left (fun mx i => if motors i >? mx then motors i else mx)
            (seq 1 3) (motors 0%nat).

(** The first statement of the third loop's body: the overshoot of the
    largest mix is taken off the motor. *)
Definition redistribute (m : t) (maxMotor v : Z) : Z :=
  if maxMotor >? max (pwmConfig m)
  then to_int16 (v - (maxMotor - max (pwmConfig m)))
  else v.

(** The body of the third loop, for motor [i]. *)
Definition finalMotor (m : t) (rc : RC) (armed : bool) (maxMotor : Z)
           (motors : array Z) (i : nat) : array Z :=
  let motors := upd motors i (redistribute m maxMotor (motors i)) in
  let motors :=
    upd motors i (to_int16 (constrain (motors i) (min (pwmConfig m)) (max (pwmConfig m)))) in
  (* Avoid sudden motor jump from right yaw while arming *)
  let motors :=
    if throttleIsDown rc then upd motors i (to_int16 (min (pwmConfig m))) else motors in
  (* This is how we can spin the motors from the GCS *)
  let motors :=
    if negb armed then upd motors i (motorsDisarmed m i) else motors in
  motors.

(** The motor values at the end of the third loop. *)
Definition finalMotors (m : t) (rc : RC) (stabilize : Stabilize.t) (armed : bool)
  : array Z :=
  let motors := rawMotors m rc stabilize in
  let maxMotor := maxMotor motors in
  fold_left (finalMotor m rc armed maxMotor) (seq 0 4) motors.

(** [Mixer::update]: the calls of [board->writeMotor], in order, each with
    the motor index and the value passed. *)
Definition update (m : t) (rc : RC) (stabilize : Stabilize.t) (armed : bool)
  : list (nat * Z) :=
  let motors := finalMotors m rc stabilize armed in
  map (fun i => (i, motors i)) (seq 0 4).

End Mixer.

(** ** The simulator's configuration (v_repExtHackflight.cpp) *)

Definition f_ratio (a b : Z) : float := fdiv (float_of_int a) (float_of_int b).

(** The gains set by [VrepSimBoard::getConfig]; each float literal is the
    binary32 number nearest to the decimal.  The trims are zero. *)
Definition simPidConfig : PidConfig := {|
  levelP := f_ratio 10 100;
  ratePitchrollP := f_ratio 125 1000;
  ratePitchrollI := f_ratio 5 100;
  ratePitchrollD := f_ratio 1 100;
  yawP := f_ratio 1 10;
  yawI := f_ratio 5 100;
  softwareTrim := zeros
|}.

(** Modelled from the spec: the simulator leaves the inclination bound and
    the PWM range at the defaults of config.hpp, which is not among the
    sources; the range is the one of the spec's end-to-end scenarios. *)
Definition simImuConfig : ImuConfig := {| maxAngleInclination := 500 |}.

Definition simPwmConfig : PwmConfig := {| min := 1000; max := 2000 |}.

Definition fzero : float := S754_zero false.
Definition fzeros : array float := fun _ => fzero.

(** An object before [init]: every member holds whatever is given. *)
Definition blankStabilize : Stabilize.t :=
  Stabilize.mk zeros zeros zeros zeros zeros zeros simImuConfig simPidConfig.

Definition simStabilize : Stabilize.t :=
  Stabilize.exec (Stabilize.init simPidConfig simImuConfig) blankStabilize.

Definition blankMixer : Mixer.t := Mixer.mk zeros simPwmConfig Mixer.quadX.

Definition simMixer : Mixer.t := Mixer.init simPwmConfig blankMixer.

(** ** Notions used by the statements *)

(** The windup guard of [computeITermGyro] for one axis. *)
Definition guard_holds (rcCommand gyroADC : array Z) (axis : nat) : Prop :=
  640 < Z.abs (gyroADC axis) \/ (axis = AXIS_YAW /\ 100 < Z.abs (rcCommand DEMAND_YAW)).

(** The gains of a configuration are finite floats. *)
Definition finite_gains (pid : PidConfig) : Prop :=
  is_finite (levelP pid) = true /\
  is_finite (ratePitchrollP pid) = true /\
  is_finite (ratePitchrollI pid) = true /\
  is_finite (ratePitchrollD pid) = true /\
  is_finite (yawP pid) = true /\
  is_finite (yawI pid) = true.

(** An integer array is zero on roll, pitch and yaw. *)
Definition zero_axes (a : array Z) : Prop :=
  a AXIS_ROLL = 0 /\ a AXIS_PITCH = 0 /\ a AXIS_YAW = 0.

(** The history of the D term is zero on the two levelled axes. *)
Definition zero_history (s : Stabilize.t) : Prop :=
  (Stabilize.lastGyro s AXIS_ROLL = 0 /\ Stabilize.lastGyro s AXIS_PITCH = 0) /\
  (Stabilize.delta1 s AXIS_ROLL = 0 /\ Stabilize.delta1 s AXIS_PITCH = 0) /\
  (Stabilize.delta2 s AXIS_ROLL = 0 /\ Stabilize.delta2 s AXIS_PITCH = 0).

(** [resetIntegral] followed by one [update]. *)
Definition coldStart (rcCommand gyroADC : array Z) (eulerAngles : array float)
  : Stabilize.M unit :=
  Stabilize.bind Stabilize.resetIntegral
                 (fun _ => Stabilize.update rcCommand gyroADC eulerAngles).

(** The D term handed to [computePid] by [computeLevelPid]. *)
Definition levelDTerm (rcCommand gyroADC : array Z) (eulerAngles : array float)
           (axis : nat) (s : Stabilize.t) : Z :=
  snd (Stabilize.eval (Stabilize.computeLevelTerms rcCommand gyroADC eulerAngles axis) s).

(** The value the third loop leaves in motor [i], from its raw mix [v]. *)
Definition motorCommand (m : Mixer.t) (rc : RC) (armed : bool) (maxMotor v : Z)
           (i : nat) : Z :=
  let v1 := Mixer.redistribute m maxMotor v in
  let v2 := to_int16 (constrain v1 (min (Mixer.pwmConfig m)) (max (Mixer.pwmConfig m))) in
  let v3 := if throttleIsDown rc then to_int16 (min (Mixer.pwmConfig m)) else v2 in
  if negb armed then Mixer.motorsDisarmed m i else v3.

(** The mixing table after [Mixer::init]. *)
Definition initialised (m : Mixer.t) : Prop :=
  forall i, (i < 4)%nat -> Mixer.mixerQuadX m i = Mixer.quadX i.

(** A mixer coefficient as an integer. *)
Definition coefficient (c : float) : Z := int32_of_float c.

(** The raw mix of motor [i] in integer arithmetic. *)
Definition intMix (m : Mixer.t) (rc : RC) (stabilize : Stabilize.t) (i : nat) : Z :=
  command rc DEMAND_THROTTLE * coefficient (Mixer.throttle (Mixer.mixerQuadX m i))
  + Stabilize.axisPID stabilize AXIS_PITCH * coefficient (Mixer.pitch (Mixer.mixerQuadX m i))
  + Stabilize.axisPID stabilize AXIS_ROLL * coefficient (Mixer.roll (Mixer.mixerQuadX m i))
  - Stabilize.axisPID stabilize AXIS_YAW * coefficient (Mixer.yaw (Mixer.mixerQuadX m i)).

(** The binary32 number of a positive integer below [2^24]: the mantissa is
    the integer shifted up to 24 digits. *)
Definition canon (s : bool) (n : positive) : float :=
  S754_finite s (Z.to_pos (Zpos n * 2 ^ (24 - Zpos (digits2_pos n))))
              (Zpos (digits2_pos n) - 24).

(** A float that stands for an integer: its float, or the negative zero a
    product by -1.0 leaves for the integer 0. *)
Definition represents (x : float) (a : Z) : Prop :=
  x = float_of_int a \/ (a = 0 /\ x = S754_zero true).

(** The binary32 number of [n / 2^k], for a positive integer [n] below
    [2^24]: the mantissa of [canon], the exponent lowered by [k]. *)
Definition scaled (s : bool) (n : positive) (k : Z) : float :=
  S754_finite s (Z.to_pos (Zpos n * 2 ^ (24 - Zpos (digits2_pos n))))
              (Zpos (digits2_pos n) - 24 - k).

(** The binary32 number of [z / 2^k], for an integer of magnitude below
    [2^24]. *)
Definition ratio_pow2 (z k : Z) : float :=
  match z with
  | Z0 => S754_zero false
  | Zpos n => scaled false n k
  | Zneg n => scaled true n k
  end.

(** The gain [1 / 2^k] as a binary32 number; [gain_pow2 3] is the literal
    [0.125f] of the simulator's roll and pitch rate gain. *)
Definition gain_pow2 (k : Z) : float := S754_finite false 8388608 (-23 - k).

(** ** Concrete objects *)

(** A mixer whose first disarmed value was set to 900 by the ground station. *)
Definition gcsMixer : Mixer.t :=
  Mixer.mk (upd (Mixer.motorsDisarmed simMixer) 0 900) simPwmConfig Mixer.quadX.

(** One tick of the stabilizer with centred sticks and level attitude. *)
Definition tick (gyroADC : array Z) (s : Stabilize.t) : Stabilize.t :=
  Stabilize.exec (Stabilize.update zeros gyroADC fzeros) s.

(** The simulator's stabilizer after three ticks of a steady roll rate of
    300: the last sample is 300 and both stored deltas are back to 0. *)
Definition steadyRoll : Stabilize.t :=
  tick (upd zeros AXIS_ROLL 300)
       (tick (upd zeros AXIS_ROLL 300) (tick (upd zeros AXIS_ROLL 300) simStabilize)).

(** A stabilizer whose integrals are wound up and whose gyro history is
    zero. *)
Definition woundStabilize : Stabilize.t :=
  Stabilize.mk (upd zeros AXIS_ROLL 42) zeros zeros zeros
               (upd zeros AXIS_ROLL 5000) (upd zeros AXIS_PITCH (-700))
               simImuConfig simPidConfig.

(** The simulator's gains with a roll trim of 7. *)
Definition trimmedPidConfig : PidConfig := {|
  levelP := levelP simPidConfig;
  ratePitchrollP := ratePitchrollP simPidConfig;
  ratePitchrollI := ratePitchrollI simPidConfig;
  ratePitchrollD := ratePitchrollD simPidConfig;
  yawP := yawP simPidConfig;
  yawI := yawI simPidConfig;
  softwareTrim := upd zeros AXIS_ROLL 7
|}.

Definition trimmedStabilize : Stabilize.t :=
  Stabilize.exec (Stabilize.init trimmedPidConfig simImuConfig) blankStabilize.

(** Corrections of 200 on roll and on pitch with a throttle of 1800: the
    raw mix of the left rear motor is 2200. *)
Definition saturatingRC : RC :=
  {| command := upd zeros DEMAND_THROTTLE 1800; throttleIsDown := false |}.

Definition saturatingStabilize : Stabilize.t :=
  Stabilize.mk (upd (upd zeros AXIS_ROLL 200) AXIS_PITCH 200)
               zeros zeros zeros zeros zeros simImuConfig simPidConfig.

(** Corrections of -300 on roll and 200 on pitch: with a throttle of 1800
    the raw mixes are 2300, 1900, 1700 and 1300, the right rear motor
    leading. *)
Definition leadingStabilize : Stabilize.t :=
  Stabilize.mk (upd (upd zeros AXIS_ROLL (-300)) AXIS_PITCH 200)
               zeros zeros zeros zeros zeros simImuConfig simPidConfig.

(** Corrections that push the raw mix of the left rear motor to 35000. *)
Definition overflowingRC : RC :=
  {| command := upd zeros DEMAND_THROTTLE 2000; throttleIsDown := false |}.

Definition overflowingStabilize : Stabilize.t :=
  Stabilize.mk (upd (upd zeros AXIS_ROLL 13000) AXIS_PITCH 20000)
               zeros zeros zeros zeros zeros simImuConfig simPidConfig.

(** A throttle of 1500 with corrections of 100 on roll, -50 on pitch and
    30 on yaw: every raw mix lies in the PWM range. *)
Definition cruisingRC : RC :=
  {| command := upd zeros DEMAND_THROTTLE 1500; throttleIsDown := false |}.

Definition cruisingStabilize : Stabilize.t :=
  Stabilize.mk (upd (upd (upd zeros AXIS_ROLL 100) AXIS_PITCH (-50)) AXIS_YAW 30)
               zeros zeros zeros zeros zeros simImuConfig simPidConfig.

(** ** Runs of the stabilizer *)

(** The inputs of one control tick. *)
Record tickInput : Type := {
  in_rcCommand : array Z;
  in_gyroADC : array Z;
  in_eulerAngles : array float
}.

(** [update] called once per tick, in order. *)
Definition runTicks (ticks : list tickInput) (s : Stabilize.t) : Stabilize.t :=
  fold_left (fun s t => Stabilize.exec (Stabilize.update (in_rcCommand t) (in_gyroADC t)
                                                         (in_eulerAngles t)) s)
            ticks s.

(** The roll and pitch gyro samples of a tick are [int16_t] values. *)
Definition gyro_ok (t : tickInput) : Prop :=
  in_int16 (in_gyroADC t AXIS_ROLL) /\ in_int16 (in_gyroADC t AXIS_PITCH).

(** The integrals are within their windup bounds. *)
Definition integrals_ok (s : Stabilize.t) : Prop :=
  Z.abs (Stabilize.errorGyroI s AXIS_ROLL) <= 16000 /\
  Z.abs (Stabilize.errorGyroI s AXIS_PITCH) <= 16000 /\
  Z.abs (Stabilize.errorGyroI s AXIS_YAW) <= 16000 /\
  Z.abs (Stabilize.errorAngleI s AXIS_ROLL) <= 10000 /\
  Z.abs (Stabilize.errorAngleI s AXIS_PITCH) <= 10000.

(** The gyro history of one levelled axis holds an [int16_t] sample and two
    differences of such samples. *)
Definition history_ok (s : Stabilize.t) (axis : nat) : Prop :=
  in_int16 (Stabilize.lastGyro s axis) /\
  Z.abs (Stabilize.delta1 s axis) <= 65535 /\
  Z.abs (Stabilize.delta2 s axis) <= 65535.

(** The state invariant of the stabilizer between ticks. *)
Definition stabilize_inv (s : Stabilize.t) : Prop :=
  integrals_ok s /\ history_ok s AXIS_ROLL /\ history_ok s AXIS_PITCH.

(** The object with other integrals. *)
Definition with_errorGyroI (s : Stabilize.t) (eg : array Z) : Stabilize.t :=
  Stabilize.mk (Stabilize.axisPID s) (Stabilize.lastGyro s) (Stabilize.delta1 s)
               (Stabilize.delta2 s) eg (Stabilize.errorAngleI s)
               (Stabilize.imuConfig s) (Stabilize.pidConfig s).

Definition with_errorAngleI (s : Stabilize.t) (ea : array Z) : Stabilize.t :=
  Stabilize.mk (Stabilize.axisPID s) (Stabilize.lastGyro s) (Stabilize.delta1 s)
               (Stabilize.delta2 s) (Stabilize.errorGyroI s) ea
               (Stabilize.imuConfig s) (Stabilize.pidConfig s).

(** ** The simulator plugin, first version (v_repExtHackflightWin32.cpp) *)

(** The C double: IEEE binary64. *)
Definition double : Type := spec_float.

Definition prec64 : Z := 53.
Definition emax64 : Z := 1024.

Definition ddiv : double -> double -> double := SFdiv prec64 emax64.
Definition double_of_int (z : Z) : double := binary_normalize prec64 emax64 z 0 false.

(** [(int) d]: truncation toward zero, as for a float. *)
Definition int32_of_double (d : double) : Z := int32_of_float d.

Module SimWin32.

(** [scaleAxis]: the joystick reading scaled to a demand; the product is an
    [int], the quotient a double, the result an [int] again. *)
Definition scaleAxis (value : Z) : Z :=
  int32_of_double (ddiv (double_of_int (mul32 1000 value)) (double_of_int 32767)).

(** The fields of [struct sBubbleRob]; the pointer member is an address. *)
Record sBubbleRob : Type := {
  handle : Z;
  motorHandles : array Z;
  sensorHandle : Z;
  backRelativeVelocities : array float;
  duration : float;
  backMovementDuration : float;
  waitUntilZero : Z
}.

(** The loop of [getBubbleRobIndexFromHandle] from index [i] on; the
    unsigned index is returned as an [int]. *)
Fixpoint searchFrom (i : Z) (robs : list sBubbleRob) (bubbleRobHandle : Z) : Z :=
  match robs with
  | [] => -1
  | rob :: rest =>
      if handle rob =? bubbleRobHandle then to_int32 i
      else searchFrom (i + 1) rest bubbleRobHandle
  end.

(** [getBubbleRobIndexFromHandle] *)
Definition getBubbleRobIndexFromHandle (allBubbleRobs : list sBubbleRob)
           (bubbleRobHandle : Z) : Z :=
  searchFrom 0 allBubbleRobs bubbleRobHandle.

(** stick keyboardIncrement for each keyboard down cycle *)
Definition KEYBOARD_INC : Z := 10.

(** [keyboardChange], on the [int demands[5]] of the plugin. *)
Definition keyboardChange (index : nat) (dir : Z) (demands : array Z) : array Z :=
  let demands := upd demands index (add32 (demands index) (mul32 dir KEYBOARD_INC)) in
  let demands := if demands index >? 1000 then upd demands index 1000 else demands in
  let demands := if demands index <? -1000 then upd demands index (-1000) else demands in
  demands.

Definition keyboardIncrement (index : nat) (demands : array Z) : array Z :=
  keyboardChange index 1 demands.

Definition keyboardDecrement (index : nat) (demands : array Z) : array Z :=
  keyboardChange index (-1) demands.

End SimWin32.

(** The integers from [lo], [n] of them. *)
Fixpoint Zrange (lo : Z) (n : nat) : list Z :=
  match n with
  | O => []
  | S n' => lo :: Zrange (lo + 1) n'
  end.

(** The float of a positive integer below [2^prec] in a format of
    precision [prec]. *)
Definition canon_gen (prec : Z) (s : bool) (n : positive) : spec_float :=
  S754_finite s (Z.to_pos (Zpos n * 2 ^ (prec - Zpos (digits2_pos n))))
              (Zpos (digits2_pos n) - prec).

(** ** The simulator plugin, V-REP version (v_repExtHackflight.cpp) *)

(** Float comparisons: [a > b], [a < b] and [a != b]; every comparison with
    a NaN is false, so [!=] is true on a NaN. *)
Definition fgtb (a b : float) : bool := SFltb b a.
Definition fltb (a b : float) : bool := SFltb a b.
Definition fneb (a b : float) : bool := negb (SFeqb a b).
Definition fleb (a b : float) : bool := SFleb a b.

Definition fsqrt : float -> float := SFsqrt prec32 emax32.

(** Conversions between float and double: widening is exact, narrowing
    rounds to nearest even. *)
Definition double_of_float (f : float) : double :=
  match f with
  | S754_finite s m e => binary_normalize prec64 emax64 (cond_Zopp s (Zpos m)) e s
  | _ => f
  end.

Definition float_of_double (d : double) : float :=
  match d with
  | S754_finite s m e => binary_normalize prec32 emax32 (cond_Zopp s (Zpos m)) e s
  | _ => d
  end.

(** Conversion of an integer to [uint16_t]. *)
Definition to_uint16 (z : Z) : Z := z mod 65536.

Definition in_uint16 (z : Z) : Prop := 0 <= z <= 65535.

(** Modelled from the spec: the controller kinds of controller.hpp, which is
    not among the sources: the two the plugin names, and one standing for
    every other kind, which the plugin treats alike. *)
Inductive controller_t : Type := PS3 | XBOX360 | OTHER_CONTROLLER.

Definition controller_eqb (a b : controller_t) : bool :=
  match a, b with
  | PS3, PS3 | XBOX360, XBOX360 | OTHER_CONTROLLER, OTHER_CONTROLLER => true
  | _, _ => false
  end.

Module SimVrep.

(** Keyboard support for any OS *)
Definition KEYBOARD_INC : float := f_ratio 1 100.

(** [kbchange], on the [float demands[5]] of the plugin. *)
Definition kbchange (index : nat) (dir : Z) (demands : array float) : array float :=
  let demands :=
    upd demands index (fadd (demands index) (fmul (float_of_int dir) KEYBOARD_INC)) in
  let demands :=
    if fgtb (demands index) (float_of_int 1)
    then upd demands index (float_of_int 1) else demands in
  let demands :=
    if fltb (demands index) (float_of_int (-1))
    then upd demands index (float_of_int (-1)) else demands in
  demands.

Definition kbincrement (index : nat) (demands : array float) : array float :=
  kbchange index 1 demands.

Definition kbdecrement (index : nat) (demands : array float) : array float :=
  kbchange index (-1) demands.

(** [kbRespond]: every slot of [keys] that holds the key changes a demand,
    odd slots upward and even slots downward. *)
Definition kbRespond (key : Z) (keys : array Z) (demands : array float) : array float :=
  fold_left (fun demands k =>
               if key =? keys k
               then if Nat.odd k
                    then kbincrement (Nat.div k 2) demands
                    else kbdecrement (Nat.div k 2) demands
               else demands)
            (seq 0 8) demands.

(** [VrepSimBoard::rcReadPwm], with the globals it reads as arguments. *)
Definition rcReadPwm (controller : controller_t) (demands : array float)
           (throttleDemand : float) (pwmMin pwmMax : Z) (chan : nat) : Z :=
  (* Special handling for throttle *)
  let demand := if Nat.eqb chan 3 then throttleDemand else demands chan in
  (* Special handling for pitch, roll on PS3, XBOX360 *)
  let demand :=
    if Nat.ltb chan 2 then
      let demand :=
        if controller_eqb controller PS3 then fdiv demand (float_of_int 2) else demand in
      let demand :=
        if controller_eqb controller XBOX360
        then float_of_double (ddiv (double_of_float demand)
                                   (ddiv (double_of_int 3) (double_of_int 2)))
        else demand in
      demand
    else demand in
  (* Joystick demands are in [-1,+1] *)
  let pwm :=
    int32_of_float
      (fadd (float_of_int pwmMin)
            (fmul (fdiv (fadd demand (float_of_int 1)) (float_of_int 2))
                  (float_of_int (pwmMax - pwmMin)))) in
  to_uint16 pwm.

(** [VrepSimBoard::writeMotor], on the [float thrusts[4]] of the plugin. *)
Definition writeMotor (index : nat) (value : Z) (thrusts : array float) : array float :=
  upd thrusts index (fdiv (fsub (float_of_int value) (float_of_int 1000))
                          (float_of_int 1000)).

(** The board receiving the calls of [Mixer::update]: each value is
    converted to the [uint16_t] parameter of [writeMotor]. *)
Definition writeMotors (writes : list (nat * Z)) (thrusts : array float) : array float :=
  fold_left (fun thrusts w => writeMotor (fst w) (to_uint16 (snd w)) thrusts)
            writes thrusts.

(** [VrepSimBoard::normalizeV] *)
Definition normalizeV (src dest : array float) : array float :=
  let length :=
    fsqrt (fadd (fadd (fmul (src 0%nat) (src 0%nat)) (fmul (src 1%nat) (src 1%nat)))
                (fmul (src 2%nat) (src 2%nat))) in
  if fneb length (float_of_int 0)
  then upd (upd (upd dest 0 (fdiv (src 0%nat) length)) 1 (fdiv (src 1%nat) length))
           2 (fdiv (src 2%nat) length)
  else dest.

End SimVrep.

(** A float between -1 and 1; a NaN is not. *)
Definition in_unit (f : float) : Prop :=
  fleb (float_of_int (-1)) f = true /\ fleb f (float_of_int 1) = true.

(** A float between 0 and 1. *)
Definition in_unit_nonneg (f : float) : Prop :=
  fleb (float_of_int 0) f = true /\ fleb f (float_of_int 1) = true.

(** The thrust [writeMotor] stores for a command lies between 0 and 1. *)
Definition thrust_in_unit (value : Z) : bool :=
  let t := SimVrep.writeMotor 0 value (fun _ => S754_zero false) 0%nat in
  fleb (float_of_int 0) t && fleb t (float_of_int 1).

(** * Properties *)

(** ** Integers, clamps and arrays *)

Lemma constrain_bounds (v lo hi : Z) :
  lo <= hi -> lo <= constrain v lo hi <= hi.
Proof.
  intros Hle. unfold constrain.
  destruct (v <? lo) eqn:Hlo; [lia|].
  destruct (v >? hi) eqn:Hhi; [lia|].
  apply Z.ltb_ge in Hlo.
  rewrite Z.gtb_ltb in Hhi. apply Z.ltb_ge in Hhi. lia.
Qed.

Lemma constrain_abs (v b : Z) :
  0 <= b -> Z.abs (constrain v (- b) b) <= b.
Proof.
  intros Hb. pose proof (constrain_bounds v (- b) b ltac:(lia)). lia.
Qed.

Lemma constrain_inside (v lo hi : Z) :
  lo <= v <= hi -> constrain v lo hi = v.
Proof.
  intros [Hlo Hhi]. unfold constrain.
  destruct (v <? lo) eqn:E1; [apply Z.ltb_lt in E1; lia|].
  destruct (v >? hi) eqn:E2; [rewrite Z.gtb_ltb in E2; apply Z.ltb_lt in E2; lia|].
  reflexivity.
Qed.

Lemma to_int16_range (z : Z) : in_int16 (to_int16 z).
Proof.
  unfold in_int16, to_int16, wrap.
  change (2 ^ (16 - 1)) with 32768. change (2 ^ 16) with 65536.
  pose proof (Z.mod_pos_bound (z + 32768) 65536 ltac:(lia)). lia.
Qed.

Lemma to_int16_id (z : Z) : in_int16 z -> to_int16 z = z.
Proof.
  unfold in_int16, to_int16, wrap. intros Hz.
  change (2 ^ (16 - 1)) with 32768. change (2 ^ 16) with 65536.
  rewrite Z.mod_small; lia.
Qed.

Lemma to_int32_range (z : Z) : in_int32 (to_int32 z).
Proof.
  unfold in_int32, to_int32, wrap.
  change (2 ^ (32 - 1)) with 2147483648. change (2 ^ 32) with 4294967296.
  pose proof (Z.mod_pos_bound (z + 2147483648) 4294967296 ltac:(lia)). lia.
Qed.

Lemma to_int32_id (z : Z) : in_int32 z -> to_int32 z = z.
Proof.
  unfold in_int32, to_int32, wrap. intros Hz.
  change (2 ^ (32 - 1)) with 2147483648. change (2 ^ 32) with 4294967296.
  rewrite Z.mod_small; lia.
Qed.

(** Narrowing to 16 bits forgets an earlier reduction to 32 bits. *)
Lemma to_int16_to_int32 (z : Z) : to_int16 (to_int32 z) = to_int16 z.
Proof.
  unfold to_int16, to_int32, wrap.
  change (2 ^ (32 - 1)) with 2147483648. change (2 ^ 32) with 4294967296.
  change (2 ^ (16 - 1)) with 32768. change (2 ^ 16) with 65536.
  f_equal.
  rewrite (Z.mod_eq (z + 2147483648) 4294967296) by lia.
  replace (z + 2147483648 - 4294967296 * ((z + 2147483648) / 4294967296)
           - 2147483648 + 32768)
    with (z + 32768 + (- (65536 * ((z + 2147483648) / 4294967296))) * 65536) by lia.
  apply Z.mod_add. lia.
Qed.

Lemma upd_same {A : Type} (a : array A) (i : nat) (v : A) : upd a i v i = v.
Proof. unfold upd. now rewrite Nat.eqb_refl. Qed.

Lemma upd_other {A : Type} (a : array A) (i j : nat) (v : A) :
  j <> i -> upd a i v j = a j.
Proof. unfold upd. intros H. apply Nat.eqb_neq in H. now rewrite H. Qed.

(** ** Stabilize: symbolic execution *)

(** Unfolds the monadic code of a member function down to the record of
    the object it leaves; floats and integer operations stay folded. *)
Ltac stab_run :=
  cbv beta iota zeta delta
    [Stabilize.exec Stabilize.eval Stabilize.update Stabilize.computeLevelPid
     Stabilize.computeLevelTerms Stabilize.computePid Stabilize.computeITermGyro
     Stabilize.resetIntegral Stabilize.init
     Stabilize.set_axisPID Stabilize.set_lastGyro Stabilize.set_delta1
     Stabilize.set_delta2 Stabilize.set_errorGyroI Stabilize.set_errorAngleI
     Stabilize.set_configs
     Stabilize.bind Stabilize.ret Stabilize.gets Stabilize.modify
     Stabilize.axisPID Stabilize.lastGyro Stabilize.delta1 Stabilize.delta2
     Stabilize.errorGyroI Stabilize.errorAngleI Stabilize.imuConfig
     Stabilize.pidConfig fold_right fst snd].

(** Decides the windup guards met during the execution. *)
Ltac split_guards :=
  repeat match goal with
         | |- context [if ?c then Stabilize.modify _ else _] => destruct c eqn:?
         | |- context [if ?c then (fun s => _) else _] => destruct c eqn:?
         | |- context [(if ?c then _ else _) _] => destruct c eqn:?
         end.

(** Reads of an updated array at constant indices. *)
Ltac read_arrays :=
  cbv beta iota delta
    [upd Nat.eqb AXIS_ROLL AXIS_PITCH AXIS_YAW DEMAND_ROLL DEMAND_PITCH DEMAND_YAW].

(** ** Stabilize: the integrals *)

(** C2. After every call of [Stabilize::update], from every prior state and
    for all inputs, the rate integral of each of the three axes is at most
    16000 in magnitude and the angle integral of roll and of pitch is at
    most 10000 in magnitude. *)
Theorem update_integrals_bounded
        (rcCommand gyroADC : array Z) (eulerAngles : array float) (s : Stabilize.t) :
  let s' := Stabilize.exec (Stabilize.update rcCommand gyroADC eulerAngles) s in
  Z.abs (Stabilize.errorGyroI s' AXIS_ROLL) <= 16000 /\
  Z.abs (Stabilize.errorGyroI s' AXIS_PITCH) <= 16000 /\
  Z.abs (Stabilize.errorGyroI s' AXIS_YAW) <= 16000 /\
  Z.abs (Stabilize.errorAngleI s' AXIS_ROLL) <= 10000 /\
  Z.abs (Stabilize.errorAngleI s' AXIS_PITCH) <= 10000.
Proof.
  intros s'. subst s'. destruct s as [pid lg d1 d2 eg ea imu cfg].
  stab_run.
  split_guards; stab_run; read_arrays; repeat split;
    first [ apply (constrain_abs _ 16000); lia
          | apply (constrain_abs _ 10000); lia
          | simpl; lia ].
Qed.

Lemma guard_holds_true (rcCommand gyroADC : array Z) (axis : nat) :
  guard_holds rcCommand gyroADC axis ->
  (Z.abs (gyroADC axis) >? 640)
  || (Nat.eqb axis AXIS_YAW && (Z.abs (rcCommand axis) >? 100)) = true.
Proof.
  intros [Hg | [Hax Hrc]]; apply orb_true_iff.
  - left. rewrite Z.gtb_ltb. now apply Z.ltb_lt.
  - right. subst axis. apply andb_true_iff. split; [reflexivity|].
    rewrite Z.gtb_ltb. now apply Z.ltb_lt.
Qed.

(** One call of [computeITermGyro] under its guard leaves a zero integral. *)
Lemma computeITermGyro_guarded
      (rateP rateI : float) (rcCommand gyroADC : array Z) (axis : nat) (s : Stabilize.t) :
  guard_holds rcCommand gyroADC axis ->
  Stabilize.errorGyroI
    (Stabilize.exec (Stabilize.computeITermGyro rateP rateI rcCommand gyroADC axis) s)
    axis = 0.
Proof.
  intros Hg. apply guard_holds_true in Hg.
  destruct s as [pid lg d1 d2 eg ea imu cfg].
  stab_run. rewrite Hg. stab_run. apply upd_same.
Qed.

(** C3. On every tick, a roll or pitch axis whose measured rate exceeds 640
    in magnitude has a rate integral of exactly 0 after the tick, and so has
    yaw when its measured rate exceeds 640 or the yaw stick demand exceeds
    100 in magnitude. *)
Theorem update_guard_zeroes_integral
        (rcCommand gyroADC : array Z) (eulerAngles : array float) (s : Stabilize.t)
        (axis : nat) :
  In axis [AXIS_ROLL; AXIS_PITCH; AXIS_YAW] ->
  guard_holds rcCommand gyroADC axis ->
  Stabilize.errorGyroI
    (Stabilize.exec (Stabilize.update rcCommand gyroADC eulerAngles) s) axis = 0.
Proof.
  intros Hax Hg. apply guard_holds_true in Hg.
  destruct s as [pid lg d1 d2 eg ea imu cfg].
  simpl in Hax. destruct Hax as [<- | [<- | [<- | []]]];
    stab_run; rewrite Hg; split_guards; stab_run; read_arrays; reflexivity.
Qed.

Lemma update_guard_zeroes_integral_witness :
  Stabilize.errorGyroI
    (Stabilize.exec
       (Stabilize.update (upd zeros DEMAND_YAW 101) (upd zeros AXIS_ROLL (-641)) fzeros)
       simStabilize) AXIS_YAW = 0.
Proof.
  apply update_guard_zeroes_integral.
  - simpl. right. right. left. reflexivity.
  - right. split; [reflexivity|]. vm_compute. reflexivity.
Defined.

(** C5. [Stabilize::resetIntegral] zeroes every rate and angle integral
    and leaves the gyro history, the corrections and both configuration
    snapshots as they were, from every starting state. *)
Theorem resetIntegral_frame (s : Stabilize.t) :
  let s' := Stabilize.exec Stabilize.resetIntegral s in
  (Stabilize.errorGyroI s' AXIS_ROLL = 0 /\
   Stabilize.errorGyroI s' AXIS_PITCH = 0 /\
   Stabilize.errorGyroI s' AXIS_YAW = 0 /\
   Stabilize.errorAngleI s' AXIS_ROLL = 0 /\
   Stabilize.errorAngleI s' AXIS_PITCH = 0) /\
  (Stabilize.lastGyro s' = Stabilize.lastGyro s /\
   Stabilize.delta1 s' = Stabilize.delta1 s /\
   Stabilize.delta2 s' = Stabilize.delta2 s /\
   Stabilize.axisPID s' = Stabilize.axisPID s /\
   Stabilize.pidConfig s' = Stabilize.pidConfig s /\
   Stabilize.imuConfig s' = Stabilize.imuConfig s).
Proof.
  destruct s as [pid lg d1 d2 eg ea imu cfg].
  stab_run. read_arrays. repeat split.
Qed.

(** ** Stabilize: the derivative term *)

(** [computeLevelPid] is [computePid] on the three terms computed before. *)
Lemma computeLevelPid_terms
      (rcCommand gyroADC : array Z) (eulerAngles : array float) (axis : nat)
      (s : Stabilize.t) :
  let c := Stabilize.computeLevelTerms rcCommand gyroADC eulerAngles axis s in
  Stabilize.computeLevelPid rcCommand gyroADC eulerAngles axis s =
  Stabilize.computePid (ratePitchrollP (Stabilize.pidConfig s))
                       (fst (fst (fst c))) (snd (fst (fst c))) (snd (fst c))
                       gyroADC axis (snd c).
Proof.
  destruct s as [pid lg d1 d2 eg ea imu cfg].
  stab_run. split_guards; reflexivity.
Qed.

(** C9. For a roll or pitch axis, the derivative term of a tick is the sum
    of the two stored deltas and the new delta (current gyro sample minus
    the last one) times the rate-D gain; after the tick [delta1] and [delta2]
    hold the two most recent deltas and [lastGyro] the current sample. *)
Theorem level_derivative_term
        (rcCommand gyroADC : array Z) (eulerAngles : array float) (s : Stabilize.t)
        (axis : nat) :
  axis = AXIS_ROLL \/ axis = AXIS_PITCH ->
  in_int32 (Stabilize.delta1 s axis + Stabilize.delta2 s axis) ->
  in_int32 (Stabilize.delta1 s axis + Stabilize.delta2 s axis
            + (gyroADC axis - Stabilize.lastGyro s axis)) ->
  let delta := gyroADC axis - Stabilize.lastGyro s axis in
  let s' := Stabilize.exec (Stabilize.update rcCommand gyroADC eulerAngles) s in
  levelDTerm rcCommand gyroADC eulerAngles axis s =
    int32_of_float
      (fmul (float_of_int (Stabilize.delta1 s axis + Stabilize.delta2 s axis + delta))
            (ratePitchrollD (Stabilize.pidConfig s))) /\
  Stabilize.delta1 s' axis = delta /\
  Stabilize.delta2 s' axis = Stabilize.delta1 s axis /\
  Stabilize.lastGyro s' axis = gyroADC axis.
Proof.
  intros Hax H12 H123 delta s'. subst delta s'. unfold levelDTerm.
  destruct s as [pid lg d1 d2 eg ea imu cfg].
  cbv [Stabilize.delta1 Stabilize.delta2 Stabilize.lastGyro] in H12, H123.
  split.
  - stab_run. split_guards; stab_run; unfold add32;
      rewrite (to_int32_id (d1 axis + d2 axis)) by assumption;
      rewrite to_int32_id by assumption; reflexivity.
  - destruct Hax as [-> | ->];
      stab_run; split_guards; stab_run; read_arrays; repeat split.
Qed.

Lemma level_derivative_term_witness :
  let gyro := upd zeros AXIS_PITCH 500 in
  let s := Stabilize.exec (Stabilize.update zeros (upd zeros AXIS_PITCH 300) fzeros)
                          simStabilize in
  let s' := Stabilize.exec (Stabilize.update zeros gyro fzeros) s in
  levelDTerm zeros gyro fzeros AXIS_PITCH s =
    int32_of_float (fmul (float_of_int (300 + 0 + (500 - 300))) (f_ratio 1 100)) /\
  Stabilize.delta1 s' AXIS_PITCH = 500 - 300 /\
  Stabilize.delta2 s' AXIS_PITCH = 300 /\
  Stabilize.lastGyro s' AXIS_PITCH = 500.
Proof.
  intros gyro s s'.
  apply (level_derivative_term zeros gyro fzeros s AXIS_PITCH).
  - right. reflexivity.
  - vm_compute. split; discriminate.
  - vm_compute. split; discriminate.
Defined.

(** ** Floats: arithmetic on zeros *)

Lemma float_of_int_0 : float_of_int 0 = S754_zero false.
Proof. reflexivity. Qed.

Lemma fmul_zero_l (a b : float) :
  is_zero a = true -> is_finite b = true -> is_zero (fmul a b) = true.
Proof. destruct a, b; simpl; intros; try discriminate; reflexivity. Qed.

Lemma fmul_zero_r (a b : float) :
  is_finite a = true -> is_zero b = true -> is_zero (fmul a b) = true.
Proof. destruct a, b; simpl; intros; try discriminate; reflexivity. Qed.

Lemma fsub_zero (a b : float) :
  is_zero a = true -> is_zero b = true -> is_zero (fsub a b) = true.
Proof.
  destruct a as [sa | | |], b as [sb | | |]; simpl; intros; try discriminate.
  destruct sa, sb; reflexivity.
Qed.

Lemma int32_of_float_zero (a : float) : is_zero a = true -> int32_of_float a = 0.
Proof. destruct a; simpl; intros; try discriminate; reflexivity. Qed.

Lemma is_zero_float_of_int_0 : is_zero (float_of_int 0) = true.
Proof. reflexivity. Qed.

Lemma is_finite_float_of_int_10 : is_finite (float_of_int 10) = true.
Proof. reflexivity. Qed.

Create HintDb fzero.

#[local] Hint Resolve fmul_zero_l fmul_zero_r fsub_zero is_zero_float_of_int_0
  is_finite_float_of_int_10 : fzero.

(** The float expressions of the stabilizer on zero inputs. *)
Lemma zero_rate_error (rateP : float) :
  is_finite rateP = true ->
  int32_of_float (fsub (fmul (float_of_int 0) rateP) (float_of_int 0)) = 0.
Proof. intros. apply int32_of_float_zero. auto with fzero. Qed.

Lemma zero_gain_product (gain : float) :
  is_finite gain = true -> int32_of_float (fmul (float_of_int 0) gain) = 0.
Proof. intros. apply int32_of_float_zero. auto with fzero. Qed.

Lemma zero_pid_pterm (rateP : float) :
  is_finite rateP = true ->
  int32_of_float (fsub (float_of_int 0) (fmul (float_of_int 0) rateP)) = 0.
Proof. intros. apply int32_of_float_zero. auto with fzero. Qed.

Lemma zero_angle_error (angle : float) :
  is_zero angle = true ->
  int32_of_float (fsub (float_of_int 0) (fmul (float_of_int 10) angle)) = 0.
Proof. intros. apply int32_of_float_zero. auto with fzero. Qed.

(** ** Stabilize: cold start *)

(** C4, as amended. When the gains are finite, the software trims are zero,
    the inclination bound is not negative and the gyro history of roll and
    pitch is zero, [resetIntegral] followed by one [update] with zero roll,
    pitch and yaw demands, zero gyro samples and zero Euler angles gives a
    correction of exactly zero on each of the three axes. *)
Theorem cold_start_zero_correction
        (s : Stabilize.t) (rcCommand gyroADC : array Z) (eulerAngles : array float) :
  finite_gains (Stabilize.pidConfig s) ->
  zero_axes (softwareTrim (Stabilize.pidConfig s)) ->
  0 <= maxAngleInclination (Stabilize.imuConfig s) ->
  zero_history s ->
  zero_axes rcCommand ->
  zero_axes gyroADC ->
  is_zero (eulerAngles AXIS_ROLL) = true /\ is_zero (eulerAngles AXIS_PITCH) = true ->
  zero_axes
    (Stabilize.axisPID (Stabilize.exec (coldStart rcCommand gyroADC eulerAngles) s)).
Proof.
  intros (HlP & HP & HI & HD & HyP & HyI) (Ht0 & Ht1 & Ht2) Hmax
         ((Hl0 & Hl1) & (Hd10 & Hd11) & (Hd20 & Hd21))
         (Hr0 & Hr1 & Hr2) (Hg0 & Hg1 & Hg2) (He0 & He1).
  unfold zero_axes, coldStart. destruct s as [ax lg d1 d2 eg ea imu cfg].
  cbv [Stabilize.pidConfig Stabilize.imuConfig Stabilize.lastGyro Stabilize.delta1
       Stabilize.delta2 AXIS_ROLL AXIS_PITCH AXIS_YAW] in *.
  stab_run.
  cbv [AXIS_ROLL AXIS_PITCH AXIS_YAW DEMAND_ROLL DEMAND_PITCH DEMAND_YAW
       Stabilize.pidPTerm].
  rewrite Hg0, Hg1, Hg2, Hr0, Hr1, Hr2.
  cbn [Z.abs Z.gtb Z.compare orb andb Nat.eqb].
  stab_run. read_arrays.
  rewrite Ht0, Ht1, Ht2, Hl0, Hl1, Hd10, Hd11, Hd20, Hd21.
  change (2 * 0) with 0.
  rewrite (constrain_inside 0) by lia.
  rewrite !zero_angle_error by assumption.
  rewrite !zero_rate_error by assumption.
  change (constrain (add32 0 0) (-16000) 16000) with 0.
  change (add32 (add32 0 0) (0 - 0)) with 0.
  rewrite !zero_gain_product by assumption.
  rewrite !zero_pid_pterm by assumption.
  vm_compute. repeat split.
Qed.

Lemma cold_start_zero_correction_witness :
  zero_axes
    (Stabilize.axisPID
       (Stabilize.exec (coldStart zeros zeros fzeros)
          woundStabilize)).
Proof.
  apply cold_start_zero_correction.
  - vm_compute. repeat split.
  - vm_compute. repeat split.
  - vm_compute. discriminate.
  - vm_compute. repeat split.
  - vm_compute. repeat split.
  - vm_compute. repeat split.
  - vm_compute. repeat split.
Defined.

(** C4 as stated fails: after three ticks of a steady roll rate of 300 the
    last gyro sample is 300; [resetIntegral] keeps it, so the all-zero tick
    that follows sees a delta of -300 and returns a roll correction of 3. *)
Lemma cold_start_counterexample :
  Stabilize.lastGyro (Stabilize.exec Stabilize.resetIntegral steadyRoll) AXIS_ROLL = 300 /\
  Stabilize.axisPID (Stabilize.exec (coldStart zeros zeros fzeros) steadyRoll) AXIS_ROLL = 3 /\
  ~ zero_axes (Stabilize.axisPID (Stabilize.exec (coldStart zeros zeros fzeros) steadyRoll)).
Proof.
  split; [vm_compute; reflexivity|].
  split; [vm_compute; reflexivity|].
  intros (H & _). vm_compute in H. discriminate H.
Qed.

(** A software trim is added to the correction whatever the inputs: fresh
    from [init] with a roll trim of 7, the same two calls return 7. *)
Example cold_start_trim :
  Stabilize.axisPID
    (Stabilize.exec (coldStart zeros zeros fzeros) trimmedStabilize) AXIS_ROLL = 7.
Proof. vm_compute. reflexivity. Qed.

(** ** Mixer *)

Lemma finalMotor_at (m : Mixer.t) (rc : RC) (armed : bool) (mx : Z) (motors : array Z)
      (i j : nat) :
  Mixer.finalMotor m rc armed mx motors i j =
  if Nat.eqb j i then motorCommand m rc armed mx (motors i) i else motors j.
Proof.
  unfold Mixer.finalMotor, motorCommand.
  destruct (throttleIsDown rc), armed; cbv [negb]; unfold upd;
    rewrite ?Nat.eqb_refl; destruct (Nat.eqb j i); reflexivity.
Qed.

Lemma finalMotors_at (m : Mixer.t) (rc : RC) (stabilize : Stabilize.t) (armed : bool)
      (i : nat) :
  (i < 4)%nat ->
  Mixer.finalMotors m rc stabilize armed i =
  motorCommand m rc armed (Mixer.maxMotor (Mixer.rawMotors m rc stabilize))
               (Mixer.rawMotors m rc stabilize i) i.
Proof.
  intros Hi. unfold Mixer.finalMotors.
  generalize (Mixer.maxMotor (Mixer.rawMotors m rc stabilize)) as mx.
  generalize (Mixer.rawMotors m rc stabilize) as raw. intros raw mx.
  cbn [fold_left seq].
  destruct i as [|[|[|[|i]]]]; [| | | |lia];
    repeat (rewrite finalMotor_at; cbn [Nat.eqb]); reflexivity.
Qed.

Lemma update_writes (m : Mixer.t) (rc : RC) (stabilize : Stabilize.t) (armed : bool) :
  Mixer.update m rc stabilize armed =
  map (fun i => (i, motorCommand m rc armed
                      (Mixer.maxMotor (Mixer.rawMotors m rc stabilize))
                      (Mixer.rawMotors m rc stabilize i) i))
      [0%nat; 1%nat; 2%nat; 3%nat].
Proof.
  unfold Mixer.update. cbv [seq map].
  rewrite !finalMotors_at by lia. reflexivity.
Qed.

(** C7. With [armed == false] the four commands written by [Mixer::update]
    are the four entries of the disarmed-motor table, whatever the throttle,
    the corrections, the saturation and the throttle-down report. *)
Theorem update_disarmed (m : Mixer.t) (rc : RC) (stabilize : Stabilize.t) :
  Mixer.update m rc stabilize false =
  [(0%nat, Mixer.motorsDisarmed m 0%nat); (1%nat, Mixer.motorsDisarmed m 1%nat);
   (2%nat, Mixer.motorsDisarmed m 2%nat); (3%nat, Mixer.motorsDisarmed m 3%nat)].
Proof. rewrite update_writes. reflexivity. Qed.

(** C8. When the RC source reports the throttle stick down and the vehicle
    is armed, the four commands written by [Mixer::update] all equal the
    PWM minimum, for all corrections and throttle values. *)
Theorem update_throttle_down (m : Mixer.t) (rc : RC) (stabilize : Stabilize.t) :
  throttleIsDown rc = true ->
  in_int16 (min (Mixer.pwmConfig m)) ->
  Mixer.update m rc stabilize true =
  [(0%nat, min (Mixer.pwmConfig m)); (1%nat, min (Mixer.pwmConfig m));
   (2%nat, min (Mixer.pwmConfig m)); (3%nat, min (Mixer.pwmConfig m))].
Proof.
  intros Hdown Hmin. rewrite update_writes. unfold motorCommand.
  rewrite Hdown, (to_int16_id _ Hmin). reflexivity.
Qed.

(** C1, as amended. With [armed == true] and a PWM range whose bounds are
    [int16_t] values with [min <= max], [Mixer::update] writes motors 0 to 3
    in order, each with a command in the closed interval from [min] to
    [max]. *)
Theorem update_armed_in_range (m : Mixer.t) (rc : RC) (stabilize : Stabilize.t) :
  in_int16 (min (Mixer.pwmConfig m)) ->
  in_int16 (max (Mixer.pwmConfig m)) ->
  min (Mixer.pwmConfig m) <= max (Mixer.pwmConfig m) ->
  map fst (Mixer.update m rc stabilize true) = [0%nat; 1%nat; 2%nat; 3%nat] /\
  Forall (fun v => min (Mixer.pwmConfig m) <= v <= max (Mixer.pwmConfig m))
         (map snd (Mixer.update m rc stabilize true)).
Proof.
  intros Hmin Hmax Hle. rewrite update_writes. split; [reflexivity|].
  assert (Hcmd : forall mx v i,
             min (Mixer.pwmConfig m) <= motorCommand m rc true mx v i
             <= max (Mixer.pwmConfig m)).
  { intros mx v i. unfold motorCommand. cbv [negb].
    destruct (throttleIsDown rc).
    - rewrite to_int16_id by assumption. lia.
    - pose proof (constrain_bounds (Mixer.redistribute m mx v) _ _ Hle) as Hc.
      rewrite to_int16_id; [exact Hc|]. unfold in_int16 in *. lia. }
  cbv [map]. repeat constructor; apply Hcmd.
Qed.

Lemma update_throttle_down_witness :
  Mixer.update simMixer {| command := upd zeros DEMAND_THROTTLE 1000; throttleIsDown := true |}
               (Stabilize.mk (upd zeros AXIS_YAW 80) zeros zeros zeros zeros zeros
                             simImuConfig simPidConfig) true =
  [(0%nat, 1000); (1%nat, 1000); (2%nat, 1000); (3%nat, 1000)].
Proof.
  apply (update_throttle_down simMixer).
  - reflexivity.
  - vm_compute. split; discriminate.
Defined.

Lemma update_armed_in_range_witness :
  map fst (Mixer.update simMixer saturatingRC saturatingStabilize true)
  = [0%nat; 1%nat; 2%nat; 3%nat] /\
  Forall (fun v => 1000 <= v <= 2000)
         (map snd (Mixer.update simMixer saturatingRC saturatingStabilize true)).
Proof.
  apply (update_armed_in_range simMixer saturatingRC saturatingStabilize).
  - vm_compute. split; discriminate.
  - vm_compute. split; discriminate.
  - vm_compute. discriminate.
Defined.

(** C1 as stated fails: disarmed, motor 0 is written the table entry 900,
    which lies below the PWM minimum 1000. *)
Lemma update_in_range_counterexample :
  let rc := {| command := upd zeros DEMAND_THROTTLE 1500; throttleIsDown := false |} in
  In (0%nat, 900) (Mixer.update gcsMixer rc simStabilize false) /\
  ~ (min (Mixer.pwmConfig gcsMixer) <= 900 <= max (Mixer.pwmConfig gcsMixer)).
Proof.
  split.
  - left. reflexivity.
  - vm_compute. intros [H _]. apply H. reflexivity.
Qed.

(** *** Saturation *)

Lemma to_int16_cases (z : Z) :
  exists k, to_int16 z = z + 65536 * k /\ in_int16 (to_int16 z).
Proof.
  exists (- ((z + 32768) / 65536)). split; [|apply to_int16_range].
  unfold to_int16, wrap. change (2 ^ (16 - 1)) with 32768. change (2 ^ 16) with 65536.
  rewrite (Z.mod_eq (z + 32768) 65536) by lia. lia.
Qed.

Lemma rawMotors_at (m : Mixer.t) (rc : RC) (stabilize : Stabilize.t) (i : nat) :
  (i < 4)%nat ->
  Mixer.rawMotors m rc stabilize i = int16_of_float (Mixer.mix m rc stabilize i).
Proof.
  intros Hi. unfold Mixer.rawMotors. cbn [fold_left seq].
  destruct i as [|[|[|[|i]]]]; [| | | |lia]; reflexivity.
Qed.

Lemma rawMotors_int16 (m : Mixer.t) (rc : RC) (stabilize : Stabilize.t) (i : nat) :
  (i < 4)%nat -> in_int16 (Mixer.rawMotors m rc stabilize i).
Proof. intros Hi. rewrite rawMotors_at by assumption. apply to_int16_range. Qed.

Lemma maxMotor_max (motors : array Z) :
  Mixer.maxMotor motors =
  Z.max (motors 3%nat) (Z.max (motors 2%nat) (Z.max (motors 1%nat) (motors 0%nat))).
Proof.
  assert (Hstep : forall a b, (if a >? b then a else b) = Z.max a b).
  { intros a b. rewrite Z.gtb_ltb. destruct (b <? a) eqn:E.
    - apply Z.ltb_lt in E. lia.
    - apply Z.ltb_ge in E. lia. }
  unfold Mixer.maxMotor. cbn [fold_left seq]. now rewrite !Hstep.
Qed.

Lemma maxMotor_ge (motors : array Z) (i : nat) :
  (i < 4)%nat -> motors i <= Mixer.maxMotor motors.
Proof.
  intros Hi. rewrite maxMotor_max.
  destruct i as [|[|[|[|i]]]]; lia.
Qed.

Lemma maxMotor_in (motors : array Z) :
  exists i, (i < 4)%nat /\ Mixer.maxMotor motors = motors i.
Proof.
  rewrite maxMotor_max.
  destruct (Z.max_spec (motors 1%nat) (motors 0%nat)) as [[_ E1] | [_ E1]];
    destruct (Z.max_spec (motors 2%nat) (Z.max (motors 1%nat) (motors 0%nat)))
      as [[_ E2] | [_ E2]];
    destruct (Z.max_spec (motors 3%nat)
                         (Z.max (motors 2%nat) (Z.max (motors 1%nat) (motors 0%nat))))
      as [[_ E3] | [_ E3]];
    rewrite E3, ?E2, ?E1;
    first [ exists 0%nat; split; [lia|reflexivity]
          | exists 1%nat; split; [lia|reflexivity]
          | exists 2%nat; split; [lia|reflexivity]
          | exists 3%nat; split; [lia|reflexivity] ].
Qed.

(** C6. Let [mx] be the largest of the four raw mixes.  When [mx] exceeds
    the PWM maximum, the overshoot [mx - pwmMax] is taken off every motor
    before the clamp; so, armed and with the throttle not down, two motors
    that the clamp leaves alone end with the same difference as their raw
    mixes. *)
Theorem saturation_preserves_differences
        (m : Mixer.t) (rc : RC) (stabilize : Stabilize.t) (i j : nat) :
  let raw := Mixer.rawMotors m rc stabilize in
  let mx := Z.max (Z.max (raw 0%nat) (raw 1%nat)) (Z.max (raw 2%nat) (raw 3%nat)) in
  let lo := min (Mixer.pwmConfig m) in
  let hi := max (Mixer.pwmConfig m) in
  let shifted k := to_int16 (raw k - (mx - hi)) in
  let final := Mixer.finalMotors m rc stabilize true in
  (i < 4)%nat -> (j < 4)%nat ->
  throttleIsDown rc = false ->
  mx > hi ->
  (final i = to_int16 (constrain (shifted i) lo hi) /\
   final j = to_int16 (constrain (shifted j) lo hi)) /\
  (constrain (shifted i) lo hi = shifted i ->
   constrain (shifted j) lo hi = shifted j ->
   final i - final j = raw i - raw j).
Proof.
  intros raw mx lo hi shifted final Hi Hj Hdown Hsat.
  assert (Hmx : Mixer.maxMotor raw = mx) by (rewrite maxMotor_max; subst mx; lia).
  assert (Hfinal : forall k, (k < 4)%nat ->
                             final k = to_int16 (constrain (shifted k) lo hi)).
  { intros k Hk. subst final. rewrite finalMotors_at by assumption.
    unfold motorCommand, Mixer.redistribute. fold raw. rewrite Hmx. fold lo hi.
    rewrite Hdown. cbv [negb].
    destruct (mx >? hi) eqn:E; [reflexivity|].
    rewrite Z.gtb_ltb in E. apply Z.ltb_ge in E. lia. }
  split; [split; apply Hfinal; assumption|].
  intros Hci Hcj. rewrite !Hfinal, Hci, Hcj by assumption.
  assert (Hkeep : forall k, (k < 4)%nat ->
                            constrain (shifted k) lo hi = shifted k ->
                            to_int16 (shifted k) = raw k - (mx - hi)).
  { intros k Hk Hc.
    assert (Hle : shifted k <= hi).
    { revert Hc. unfold constrain.
      destruct (shifted k <? lo) eqn:E1.
      - apply Z.ltb_lt in E1. lia.
      - destruct (shifted k >? hi) eqn:E2; [lia|].
        rewrite Z.gtb_ltb in E2. apply Z.ltb_ge in E2. lia. }
    pose proof (maxMotor_ge raw k Hk) as Hmax. rewrite Hmx in Hmax.
    pose proof (rawMotors_int16 m rc stabilize k Hk) as Hraw. fold raw in Hraw.
    destruct (maxMotor_in raw) as (n & Hn & Hmn). rewrite Hmx in Hmn.
    pose proof (rawMotors_int16 m rc stabilize n Hn) as Hrn. fold raw in Hrn.
    rewrite <- Hmn in Hrn.
    subst shifted. cbv beta in *.
    destruct (to_int16_cases (raw k - (mx - hi))) as (q & Hq & Hr).
    rewrite (to_int16_id _ Hr). unfold in_int16 in *. lia. }
  rewrite (Hkeep i Hi Hci), (Hkeep j Hj Hcj). lia.
Qed.

Lemma saturation_preserves_differences_witness :
  let raw := Mixer.rawMotors simMixer saturatingRC leadingStabilize in
  let final := Mixer.finalMotors simMixer saturatingRC leadingStabilize true in
  (final 1%nat = to_int16 (constrain (to_int16 (raw 1%nat - (2300 - 2000))) 1000 2000) /\
   final 3%nat = to_int16 (constrain (to_int16 (raw 3%nat - (2300 - 2000))) 1000 2000)) /\
  final 1%nat - final 3%nat = raw 1%nat - raw 3%nat.
Proof.
  destruct (saturation_preserves_differences simMixer saturatingRC leadingStabilize 1 3)
    as [Hfinal Hdiff].
  - lia.
  - lia.
  - reflexivity.
  - vm_compute. reflexivity.
  - split; [exact Hfinal|]. apply Hdiff; vm_compute; reflexivity.
Defined.

(** The right rear motor leads with a raw mix of 2300: the overshoot of 300
    is taken off every motor, and none meets the clamp. *)
Example mixer_leading_motor :
  map (Mixer.rawMotors simMixer saturatingRC leadingStabilize) (seq 0 4)
  = [2300; 1900; 1700; 1300] /\
  Mixer.update simMixer saturatingRC leadingStabilize true
  = [(0%nat, 2000); (1%nat, 1600); (2%nat, 1400); (3%nat, 1000)].
Proof. split; vm_compute; reflexivity. Qed.

(** ** Floats: integers are computed exactly *)

Lemma digits2_size (p : positive) : digits2_pos p = Pos.size p.
Proof. induction p; simpl; congruence. Qed.

Lemma digits_log2 (p : positive) : Zpos (digits2_pos p) = Z.log2 (Zpos p) + 1.
Proof.
  rewrite digits2_size. destruct p; simpl; rewrite ?Pos2Z.inj_succ; lia.
Qed.

Lemma digits_shift (n M : positive) (j : Z) :
  0 <= j -> Zpos M = Zpos n * 2 ^ j ->
  Zpos (digits2_pos M) = Zpos (digits2_pos n) + j.
Proof.
  intros Hj HM. rewrite !digits_log2, HM.
  rewrite Z.log2_mul_pow2 by lia. lia.
Qed.

Lemma digits_le_24 (n : positive) : Zpos n < 2 ^ 24 -> Zpos (digits2_pos n) <= 24.
Proof.
  intros Hn. rewrite digits_log2.
  assert (Z.log2 (Zpos n) < 24) by (apply Z.log2_lt_pow2; lia). lia.
Qed.

Lemma iter_pos_nat {A : Type} (f : A -> A) (p : positive) (x : A) :
  iter_pos f p x = Nat.iter (Pos.to_nat p) f x.
Proof.
  revert x. induction p as [p IH | p IH |]; intros x; cbn [iter_pos].
  - rewrite !IH, Pos2Nat.inj_xI.
    replace (S (2 * Pos.to_nat p)) with (Pos.to_nat p + (Pos.to_nat p + 1))%nat by lia.
    rewrite !Nat.iter_add. reflexivity.
  - rewrite !IH, Pos2Nat.inj_xO.
    replace (2 * Pos.to_nat p)%nat with (Pos.to_nat p + Pos.to_nat p)%nat by lia.
    rewrite Nat.iter_add. reflexivity.
  - reflexivity.
Qed.

(** Shifting right drops trailing zero bits without remainder. *)
Lemma shr_1_exact (t : nat) (M : positive) :
  Nat.iter t shr_1 (Build_shr_record (Zpos M * 2 ^ Z.of_nat t) false false) =
  Build_shr_record (Zpos M) false false.
Proof.
  induction t as [|t IH].
  - simpl. f_equal. lia.
  - rewrite Nat.iter_succ_r.
    replace (shr_1 (Build_shr_record (Zpos M * 2 ^ Z.of_nat (S t)) false false))
      with (Build_shr_record (Zpos M * 2 ^ Z.of_nat t) false false); [exact IH|].
    rewrite Nat2Z.inj_succ, Z.pow_succ_r by lia.
    destruct (Zpos M * 2 ^ Z.of_nat t) as [|q|q] eqn:E.
    + pose proof (Z.pow_pos_nonneg 2 (Z.of_nat t)). lia.
    + replace (Zpos M * (2 * 2 ^ Z.of_nat t)) with (Zpos (xO q)) by lia. reflexivity.
    + pose proof (Z.pow_pos_nonneg 2 (Z.of_nat t)). lia.
Qed.

Lemma fexp32 (e : Z) : -125 <= e -> fexp prec32 emax32 e = e - 24.
Proof. intros He. unfold fexp, emin, prec32, emax32. lia. Qed.

(** Rounding a mantissa that is an integer below [2^24] times a power of
    two, with at least 24 digits, gives that integer's float. *)
Lemma binary_round_aux_exact (s : bool) (M n : positive) (j : Z) :
  0 <= j -> Zpos M = Zpos n * 2 ^ j -> Zpos n < 2 ^ 24 ->
  24 <= Zpos (digits2_pos n) + j ->
  binary_round_aux prec32 emax32 s (Zpos M) (- j) loc_Exact = canon s n.
Proof.
  intros Hj HM Hn Hd.
  pose proof (digits_le_24 n Hn) as Hd24.
  pose proof (digits_shift n M j Hj HM) as HdM.
  set (d := Zpos (digits2_pos n)) in *.
  assert (Hdpos : 0 < d) by (subst d; lia).
  (* the mantissa with exactly 24 digits *)
  assert (HM' : exists M', Zpos M' = Zpos n * 2 ^ (24 - d)).
  { exists (Z.to_pos (Zpos n * 2 ^ (24 - d))). rewrite Z2Pos.id; [reflexivity|].
    pose proof (Z.pow_pos_nonneg 2 (24 - d)). lia. }
  destruct HM' as (M' & HM').
  assert (HdM' : Zpos (digits2_pos M') = 24).
  { rewrite (digits_shift n M' (24 - d)) by (assumption || lia). fold d. lia. }
  (* the first shift *)
  assert (Hshr : shr_fexp prec32 emax32 (Zpos M) (- j) loc_Exact =
                 (Build_shr_record (Zpos M') false false, d - 24)).
  { unfold shr_fexp. cbn [Zdigits2 shr_record_of_loc].
    rewrite HdM, fexp32 by lia.
    replace (d + j + - j - 24 - - j) with (d + j - 24) by lia.
    destruct (d + j - 24) as [|t|t] eqn:Et; [| |lia].
    - cbn [shr]. f_equal; [|lia]. f_equal.
      rewrite HM, HM'. f_equal. f_equal. lia.
    - cbn [shr]. f_equal; [|lia].
      rewrite iter_pos_nat. rewrite <- (shr_1_exact (Pos.to_nat t) M').
      f_equal. f_equal. rewrite positive_nat_Z, HM, HM', <- Et.
      rewrite <- Z.mul_assoc, <- Z.pow_add_r by lia. f_equal. f_equal. lia. }
  unfold binary_round_aux. rewrite Hshr.
  cbn [shr_m loc_of_shr_record round_nearest_even].
  unfold shr_fexp. cbn [Zdigits2 shr_record_of_loc].
  rewrite HdM', fexp32 by lia.
  replace (24 + (d - 24) - 24 - (d - 24)) with 0 by lia.
  cbn [shr shr_m].
  replace (d - 24 <=? emax32 - prec32) with true
    by (symmetry; apply Z.leb_le; unfold emax32, prec32; lia).
  unfold canon. fold d. rewrite <- HM', Pos2Z.id. reflexivity.
Qed.

Lemma pos_iter_xO (M d : positive) : Zpos (Pos.iter xO M d) = Zpos M * 2 ^ Zpos d.
Proof.
  rewrite (Pos.iter_swap_gen _ _ Zpos xO (Z.mul 2)) by reflexivity.
  change (Pos.iter (Z.mul 2) (Zpos M) d) with (Z.shiftl (Zpos M) (Zpos d)).
  apply Z.shiftl_mul_pow2. lia.
Qed.

Lemma shl_align_value (M : positive) (e e' : Z) :
  e' <= e -> Zpos (fst (shl_align M e e')) = Zpos M * 2 ^ (e - e').
Proof.
  intros He. unfold shl_align.
  destruct (e' - e) as [|d|d] eqn:Ed; [|lia|].
  - replace (e - e') with 0 by lia. cbn [fst]. lia.
  - cbn [fst]. rewrite pos_iter_xO. f_equal. f_equal. lia.
Qed.

(** The same for [binary_round], which first brings a short mantissa up to
    24 digits. *)
Lemma binary_round_exact (s : bool) (M n : positive) (k : Z) :
  0 <= k -> Zpos M = Zpos n * 2 ^ k -> Zpos n < 2 ^ 24 ->
  binary_round prec32 emax32 s M (- k) = canon s n.
Proof.
  intros Hk HM Hn.
  pose proof (digits_le_24 n Hn) as Hd24.
  pose proof (digits_shift n M k Hk HM) as HdM.
  set (d := Zpos (digits2_pos n)) in *.
  assert (Hdpos : 0 < d) by (subst d; lia).
  unfold binary_round. rewrite HdM, fexp32 by lia.
  replace (d + k + - k - 24) with (d - 24) by lia.
  unfold shl_align.
  destruct (d - 24 - - k) as [|t|t] eqn:Et.
  - apply binary_round_aux_exact; try assumption. fold d. lia.
  - apply binary_round_aux_exact; try assumption. fold d. lia.
  - replace (d - 24) with (- (24 - d)) by lia.
    apply binary_round_aux_exact; try assumption; fold d; try lia.
    rewrite pos_iter_xO, HM, <- Z.mul_assoc, <- Z.pow_add_r by lia.
    f_equal. f_equal. lia.
Qed.

Lemma float_of_int_pos (n : positive) :
  Zpos n < 2 ^ 24 -> float_of_int (Zpos n) = canon false n.
Proof.
  intros Hn. unfold float_of_int. cbn [binary_normalize].
  apply (binary_round_exact false n n 0); try lia.
Qed.

Lemma float_of_int_neg (n : positive) :
  Zpos n < 2 ^ 24 -> float_of_int (Zneg n) = canon true n.
Proof.
  intros Hn. unfold float_of_int. cbn [binary_normalize].
  apply (binary_round_exact true n n 0); try lia.
Qed.

(** Normalising an integer below [2^24] that was scaled by a power of two
    gives the float of the integer. *)
Lemma binary_normalize_exact (z k : Z) :
  0 <= k -> Z.abs z < 2 ^ 24 ->
  binary_normalize prec32 emax32 (z * 2 ^ k) (- k) false = float_of_int z.
Proof.
  intros Hk Hz. pose proof (Z.pow_pos_nonneg 2 k ltac:(lia) Hk) as Hpow.
  destruct z as [|q|q].
  - reflexivity.
  - rewrite float_of_int_pos by lia.
    destruct (Zpos q * 2 ^ k) as [|p|p] eqn:E; [lia| |lia].
    cbn [binary_normalize]. apply binary_round_exact; lia.
  - rewrite float_of_int_neg by lia.
    destruct (Zneg q * 2 ^ k) as [|p|p] eqn:E; [lia|lia|].
    cbn [binary_normalize]. apply binary_round_exact; lia.
Qed.

Lemma binary_normalize_aligned (z e : Z) :
  e <= 0 -> Z.abs z < 2 ^ 24 ->
  binary_normalize prec32 emax32 (z * 2 ^ (- e)) e false = float_of_int z.
Proof.
  intros He Hz. replace e with (- (- e)) at 2 by lia.
  apply binary_normalize_exact; [lia | assumption].
Qed.

(** The float of a small integer, by cases. *)
Lemma float_of_int_cases (a : Z) :
  Z.abs a < 2 ^ 24 ->
  (a = 0 /\ float_of_int a = S754_zero false) \/
  (exists s n, a = cond_Zopp s (Zpos n) /\ Zpos n < 2 ^ 24 /\ float_of_int a = canon s n).
Proof.
  intros Ha. destruct a as [|n|n].
  - left. split; reflexivity.
  - right. exists false, n. repeat split; [lia|]. apply float_of_int_pos. lia.
  - right. exists true, n. repeat split; [lia|]. apply float_of_int_neg. lia.
Qed.

Lemma canon_mantissa (n : positive) :
  Zpos n < 2 ^ 24 ->
  Zpos (Z.to_pos (Zpos n * 2 ^ (24 - Zpos (digits2_pos n)))) =
  Zpos n * 2 ^ (24 - Zpos (digits2_pos n)).
Proof.
  intros Hn. pose proof (digits_le_24 n Hn).
  rewrite Z2Pos.id; [reflexivity|].
  pose proof (Z.pow_pos_nonneg 2 (24 - Zpos (digits2_pos n))). lia.
Qed.

(** Converting back gives the integer. *)
Lemma int32_of_float_of_int (a : Z) :
  Z.abs a < 2 ^ 24 -> int32_of_float (float_of_int a) = a.
Proof.
  intros Ha. destruct (float_of_int_cases a Ha) as [[-> ->] | (s & n & -> & Hn & ->)].
  - reflexivity.
  - pose proof (digits_le_24 n Hn) as Hd.
    unfold canon, int32_of_float, ftrunc.
    set (d := Zpos (digits2_pos n)) in *.
    assert (Hshift : Z.shiftl (Zpos (Z.to_pos (Zpos n * 2 ^ (24 - d)))) (d - 24) = Zpos n).
    { subst d. rewrite canon_mantissa by assumption.
      rewrite <- Z.shiftr_opp_r, Z.shiftr_div_pow2 by lia.
      replace (- (Zpos (digits2_pos n) - 24)) with (24 - Zpos (digits2_pos n)) by lia.
      apply Z.div_mul.
      pose proof (Z.pow_pos_nonneg 2 (24 - Zpos (digits2_pos n))). lia. }
    rewrite Hshift.
    replace ((-2147483648 <=? cond_Zopp s (Zpos n))
             && (cond_Zopp s (Zpos n) <=? 2147483647)) with true; [reflexivity|].
    symmetry. apply andb_true_iff. split; apply Z.leb_le; destruct s; simpl; lia.
Qed.

Lemma cond_Zopp_mul (s : bool) (x y : Z) : cond_Zopp s x * y = cond_Zopp s (x * y).
Proof. destruct s; simpl; lia. Qed.

(** The aligned mantissa of an integer's float, as used by sums. *)
Lemma canon_aligned (s : bool) (n : positive) (ez : Z) :
  Zpos n < 2 ^ 24 -> ez <= Zpos (digits2_pos n) - 24 ->
  cond_Zopp s
    (Zpos (fst (shl_align (Z.to_pos (Zpos n * 2 ^ (24 - Zpos (digits2_pos n))))
                          (Zpos (digits2_pos n) - 24) ez))) =
  cond_Zopp s (Zpos n) * 2 ^ (- ez).
Proof.
  intros Hn Hez. pose proof (digits_le_24 n Hn) as Hd.
  rewrite shl_align_value by assumption.
  rewrite canon_mantissa by assumption.
  rewrite cond_Zopp_mul. f_equal.
  rewrite <- Z.mul_assoc, <- Z.pow_add_r by lia. f_equal. f_equal. lia.
Qed.

(** Sums and differences of small integers are computed exactly. *)
Lemma fadd_int (a b : Z) :
  Z.abs a < 2 ^ 24 -> Z.abs b < 2 ^ 24 -> Z.abs (a + b) < 2 ^ 24 ->
  fadd (float_of_int a) (float_of_int b) = float_of_int (a + b).
Proof.
  intros Ha Hb Hab.
  destruct (float_of_int_cases a Ha) as [[-> Ea] | (sa & na & -> & Hna & Ea)];
    destruct (float_of_int_cases b Hb) as [[-> Eb] | (sb & nb & -> & Hnb & Eb)].
  - reflexivity.
  - rewrite Z.add_0_l, Ea, Eb. reflexivity.
  - rewrite Z.add_0_r, Ea, Eb. reflexivity.
  - rewrite Ea, Eb. unfold canon, fadd, SFadd.
    pose proof (digits_le_24 na Hna). pose proof (digits_le_24 nb Hnb).
    set (ez := Z.min (Zpos (digits2_pos na) - 24) (Zpos (digits2_pos nb) - 24)).
    rewrite !canon_aligned by (assumption || lia).
    rewrite <- Z.mul_add_distr_r.
    apply binary_normalize_aligned; [lia | assumption].
Qed.

Lemma fsub_int (a b : Z) :
  Z.abs a < 2 ^ 24 -> Z.abs b < 2 ^ 24 -> Z.abs (a - b) < 2 ^ 24 ->
  fsub (float_of_int a) (float_of_int b) = float_of_int (a - b).
Proof.
  intros Ha Hb Hab.
  destruct (float_of_int_cases a Ha) as [[-> Ea] | (sa & na & -> & Hna & Ea)];
    destruct (float_of_int_cases b Hb) as [[-> Eb] | (sb & nb & -> & Hnb & Eb)].
  - reflexivity.
  - rewrite Eb. cbn [fsub SFsub canon float_of_int binary_normalize].
    destruct sb; cbn [cond_Zopp Z.sub Z.add Z.opp negb].
    + rewrite float_of_int_pos by assumption. reflexivity.
    + rewrite float_of_int_neg by assumption. reflexivity.
  - rewrite Z.sub_0_r, Ea, Eb. reflexivity.
  - rewrite Ea, Eb. unfold canon, fsub, SFsub.
    pose proof (digits_le_24 na Hna). pose proof (digits_le_24 nb Hnb).
    set (ez := Z.min (Zpos (digits2_pos na) - 24) (Zpos (digits2_pos nb) - 24)).
    rewrite !canon_aligned by (assumption || lia).
    rewrite <- Z.mul_sub_distr_r.
    apply binary_normalize_aligned; [lia | assumption].
Qed.

(** Multiplying by a mixer coefficient, +1.0 or -1.0, keeps or flips the
    sign. *)
Lemma fmul_int_plus1 (a : Z) :
  Z.abs a < 2 ^ 24 -> fmul (float_of_int a) Mixer.plus1 = float_of_int a.
Proof.
  intros Ha.
  destruct (float_of_int_cases a Ha) as [[-> Ea] | (s & n & -> & Hn & Ea)].
  - reflexivity.
  - rewrite Ea. pose proof (digits_le_24 n Hn) as Hd.
    unfold canon at 1. unfold fmul, SFmul, Mixer.plus1.
    replace (Zpos (digits2_pos n) - 24 + -23) with (- (47 - Zpos (digits2_pos n))) by lia.
    rewrite xorb_false_r.
    apply binary_round_aux_exact; try assumption; try lia.
    rewrite Pos2Z.inj_mul, canon_mantissa by assumption.
    change (Zpos 8388608) with (2 ^ 23).
    rewrite <- Z.mul_assoc, <- Z.pow_add_r by lia. f_equal. f_equal. lia.
Qed.

Lemma fmul_int_minus1 (a : Z) :
  Z.abs a < 2 ^ 24 -> represents (fmul (float_of_int a) Mixer.minus1) (- a).
Proof.
  intros Ha.
  destruct (float_of_int_cases a Ha) as [[-> Ea] | (s & n & -> & Hn & Ea)].
  - right. split; reflexivity.
  - left. rewrite Ea. pose proof (digits_le_24 n Hn) as Hd.
    replace (float_of_int (- cond_Zopp s (Zpos n))) with (canon (xorb s true) n).
    2:{ destruct s; cbn [cond_Zopp Z.opp xorb];
        [rewrite float_of_int_pos | rewrite float_of_int_neg]; auto. }
    unfold canon at 1. unfold fmul, SFmul, Mixer.minus1.
    replace (Zpos (digits2_pos n) - 24 + -23) with (- (47 - Zpos (digits2_pos n))) by lia.
    apply binary_round_aux_exact; try assumption; try lia.
    rewrite Pos2Z.inj_mul, canon_mantissa by assumption.
    change (Zpos 8388608) with (2 ^ 23).
    rewrite <- Z.mul_assoc, <- Z.pow_add_r by lia. f_equal. f_equal. lia.
Qed.

Lemma fadd_represents (a b : Z) (y : float) :
  represents y b ->
  Z.abs a < 2 ^ 24 -> Z.abs b < 2 ^ 24 -> Z.abs (a + b) < 2 ^ 24 ->
  fadd (float_of_int a) y = float_of_int (a + b).
Proof.
  intros [-> | [-> ->]] Ha Hb Hab.
  - now apply fadd_int.
  - rewrite Z.add_0_r.
    destruct (float_of_int_cases a Ha) as [[-> Ea] | (s & n & -> & Hn & Ea)].
    + reflexivity.
    + rewrite Ea. reflexivity.
Qed.

Lemma fsub_represents (a b : Z) (y : float) :
  represents y b ->
  Z.abs a < 2 ^ 24 -> Z.abs b < 2 ^ 24 -> Z.abs (a - b) < 2 ^ 24 ->
  fsub (float_of_int a) y = float_of_int (a - b).
Proof.
  intros [-> | [-> ->]] Ha Hb Hab.
  - now apply fsub_int.
  - rewrite Z.sub_0_r.
    destruct (float_of_int_cases a Ha) as [[-> Ea] | (s & n & -> & Hn & Ea)].
    + reflexivity.
    + rewrite Ea. reflexivity.
Qed.

(** ** Narrowing to 16 bits *)

Lemma fmul_coefficient (a : Z) (c : float) :
  c = Mixer.plus1 \/ c = Mixer.minus1 ->
  in_int16 a ->
  represents (fmul (float_of_int a) c) (a * coefficient c) /\
  Z.abs (a * coefficient c) <= 32768.
Proof.
  unfold in_int16. change (2 ^ 24) with 16777216.
  intros [-> | ->] Ha.
  - change (coefficient Mixer.plus1) with 1. rewrite Z.mul_1_r.
    split; [|lia]. left. apply fmul_int_plus1. change (2 ^ 24) with 16777216. lia.
  - change (coefficient Mixer.minus1) with (-1).
    replace (a * -1) with (- a) by lia.
    split; [|lia]. apply fmul_int_minus1. change (2 ^ 24) with 16777216. lia.
Qed.

Lemma mix_sum_exact (t p r y : Z) (ct cp cr cy : float) :
  ct = Mixer.plus1 ->
  cp = Mixer.plus1 \/ cp = Mixer.minus1 ->
  cr = Mixer.plus1 \/ cr = Mixer.minus1 ->
  cy = Mixer.plus1 \/ cy = Mixer.minus1 ->
  in_int16 t -> in_int16 p -> in_int16 r -> in_int16 y ->
  fsub (fadd (fadd (fmul (float_of_int t) ct) (fmul (float_of_int p) cp))
             (fmul (float_of_int r) cr))
       (fmul (float_of_int y) cy)
  = float_of_int (t * coefficient ct + p * coefficient cp + r * coefficient cr
                  - y * coefficient cy) /\
  Z.abs (t * coefficient ct + p * coefficient cp + r * coefficient cr
         - y * coefficient cy) <= 131072.
Proof.
  intros -> Hcp Hcr Hcy Ht Hp Hr Hy.
  destruct (fmul_coefficient p cp Hcp Hp) as [Rp Bp].
  destruct (fmul_coefficient r cr Hcr Hr) as [Rr Br].
  destruct (fmul_coefficient y cy Hcy Hy) as [Ry By].
  change (coefficient Mixer.plus1) with 1. rewrite Z.mul_1_r.
  assert (Bt : Z.abs t <= 32768) by (unfold in_int16 in Ht; lia).
  rewrite fmul_int_plus1 by (change (2 ^ 24) with 16777216; lia).
  rewrite (fadd_represents t _ _ Rp) by (change (2 ^ 24) with 16777216; lia).
  rewrite (fadd_represents _ _ _ Rr) by (change (2 ^ 24) with 16777216; lia).
  rewrite (fsub_represents _ _ _ Ry) by (change (2 ^ 24) with 16777216; lia).
  split; [reflexivity | lia].
Qed.

(** With the table of [init] the raw mix of a motor is the integer mix,
    kept to its low 16 bits. *)
Lemma rawMotors_intMix (m : Mixer.t) (rc : RC) (stabilize : Stabilize.t) (i : nat) :
  initialised m ->
  in_int16 (command rc DEMAND_THROTTLE) ->
  in_int16 (Stabilize.axisPID stabilize AXIS_PITCH) ->
  in_int16 (Stabilize.axisPID stabilize AXIS_ROLL) ->
  in_int16 (Stabilize.axisPID stabilize AXIS_YAW) ->
  (i < 4)%nat ->
  Mixer.rawMotors m rc stabilize i = to_int16 (intMix m rc stabilize i).
Proof.
  intros Hm Ht Hp Hr Hy Hi.
  rewrite rawMotors_at by assumption.
  unfold int16_of_float, Mixer.mix, intMix. rewrite (Hm i Hi).
  assert (Hc : Mixer.throttle (Mixer.quadX i) = Mixer.plus1 /\
               (Mixer.pitch (Mixer.quadX i) = Mixer.plus1
                \/ Mixer.pitch (Mixer.quadX i) = Mixer.minus1) /\
               (Mixer.roll (Mixer.quadX i) = Mixer.plus1
                \/ Mixer.roll (Mixer.quadX i) = Mixer.minus1) /\
               (Mixer.yaw (Mixer.quadX i) = Mixer.plus1
                \/ Mixer.yaw (Mixer.quadX i) = Mixer.minus1)).
  { destruct i as [|[|[|[|i]]]]; [| | | |lia]; cbn; auto. }
  destruct Hc as (Hct & Hcp & Hcr & Hcy).
  destruct (mix_sum_exact _ _ _ _ _ _ _ _ Hct Hcp Hcr Hcy Ht Hp Hr Hy) as [-> Hb].
  rewrite int32_of_float_of_int by (change (2 ^ 24) with 16777216; lia).
  reflexivity.
Qed.

Lemma to_int32_cases (z : Z) : exists k, to_int32 z = z + 4294967296 * k.
Proof.
  exists (- ((z + 2147483648) / 4294967296)).
  unfold to_int32, wrap.
  change (2 ^ (32 - 1)) with 2147483648. change (2 ^ 32) with 4294967296.
  rewrite (Z.mod_eq (z + 2147483648) 4294967296) by lia. lia.
Qed.

Lemma to_int16_shift (z k : Z) : to_int16 (z + 65536 * k) = to_int16 z.
Proof.
  unfold to_int16, wrap. change (2 ^ (16 - 1)) with 32768. change (2 ^ 16) with 65536.
  f_equal. replace (z + 65536 * k + 32768) with (z + 32768 + k * 65536) by lia.
  apply Z.mod_add. lia.
Qed.

Lemma to_int16_residue (z : Z) : (z - to_int16 z) mod 65536 = 0.
Proof.
  destruct (to_int16_cases z) as (k & -> & _).
  replace (z - (z + 65536 * k)) with ((- k) * 65536) by lia.
  apply Z.mod_mul. lia.
Qed.

(** Narrowing the 32-bit sum of [computePid] forgets its 32-bit overflows. *)
Lemma to_int16_sum32 (p i d t : Z) :
  to_int16 (add32 (sub32 (add32 p i) d) t) = to_int16 (p + i - d + t).
Proof.
  unfold add32, sub32. rewrite to_int16_to_int32.
  destruct (to_int32_cases (p + i)) as (k1 & ->).
  destruct (to_int32_cases (p + i + 4294967296 * k1 - d)) as (k2 & ->).
  replace (p + i + 4294967296 * k1 - d + 4294967296 * k2 + t)
    with (p + i - d + t + 65536 * (65536 * (k1 + k2))) by lia.
  apply to_int16_shift.
Qed.

(** ** A rate gain that is a power of two *)

(** The products and differences of [computePid] are exact when the gain
    is [1 / 2^k]: no rounding takes place, and the conversion back to
    [int32_t] truncates toward zero. *)
Lemma binary_round_aux_scaled (s : bool) (M n : positive) (j k : Z) :
  0 <= j -> Zpos M = Zpos n * 2 ^ j -> Zpos n < 2 ^ 24 ->
  24 <= Zpos (digits2_pos n) + j -> 0 <= k <= 100 ->
  binary_round_aux prec32 emax32 s (Zpos M) (- j - k) loc_Exact = scaled s n k.
Proof.
  intros Hj HM Hn Hd Hk.
  pose proof (digits_le_24 n Hn) as Hd24.
  pose proof (digits_shift n M j Hj HM) as HdM.
  set (d := Zpos (digits2_pos n)) in *.
  assert (Hdpos : 0 < d) by (subst d; lia).
  assert (HM' : exists M', Zpos M' = Zpos n * 2 ^ (24 - d)).
  { exists (Z.to_pos (Zpos n * 2 ^ (24 - d))). rewrite Z2Pos.id; [reflexivity|].
    pose proof (Z.pow_pos_nonneg 2 (24 - d)). lia. }
  destruct HM' as (M' & HM').
  assert (HdM' : Zpos (digits2_pos M') = 24).
  { rewrite (digits_shift n M' (24 - d)) by (assumption || lia). fold d. lia. }
  assert (Hshr : shr_fexp prec32 emax32 (Zpos M) (- j - k) loc_Exact =
                 (Build_shr_record (Zpos M') false false, d - 24 - k)).
  { unfold shr_fexp. cbn [Zdigits2 shr_record_of_loc].
    rewrite HdM, fexp32 by lia.
    replace (d + j + (- j - k) - 24 - (- j - k)) with (d + j - 24) by lia.
    destruct (d + j - 24) as [|t|t] eqn:Et; [| |lia].
    - cbn [shr]. f_equal; [|lia]. f_equal.
      rewrite HM, HM'. f_equal. f_equal. lia.
    - cbn [shr]. f_equal; [|lia].
      rewrite iter_pos_nat. rewrite <- (shr_1_exact (Pos.to_nat t) M').
      f_equal. f_equal. rewrite positive_nat_Z, HM, HM', <- Et.
      rewrite <- Z.mul_assoc, <- Z.pow_add_r by lia. f_equal. f_equal. lia. }
  unfold binary_round_aux. rewrite Hshr.
  cbn [shr_m loc_of_shr_record round_nearest_even].
  unfold shr_fexp. cbn [Zdigits2 shr_record_of_loc].
  rewrite HdM', fexp32 by lia.
  replace (24 + (d - 24 - k) - 24 - (d - 24 - k)) with 0 by lia.
  cbn [shr shr_m].
  replace (d - 24 - k <=? emax32 - prec32) with true
    by (symmetry; apply Z.leb_le; unfold emax32, prec32; lia).
  unfold scaled. fold d. rewrite <- HM', Pos2Z.id. reflexivity.
Qed.

Lemma binary_round_scaled (s : bool) (M n : positive) (K k : Z) :
  0 <= K -> Zpos M = Zpos n * 2 ^ K -> Zpos n < 2 ^ 24 -> 0 <= k <= 100 ->
  binary_round prec32 emax32 s M (- K - k) = scaled s n k.
Proof.
  intros HK HM Hn Hk.
  pose proof (digits_le_24 n Hn) as Hd24.
  pose proof (digits_shift n M K HK HM) as HdM.
  set (d := Zpos (digits2_pos n)) in *.
  assert (Hdpos : 0 < d) by (subst d; lia).
  unfold binary_round. rewrite HdM, fexp32 by lia.
  replace (d + K + (- K - k) - 24) with (d - 24 - k) by lia.
  unfold shl_align.
  destruct (d - 24 - k - (- K - k)) as [|t|t] eqn:Et.
  - apply binary_round_aux_scaled; try assumption. fold d. lia.
  - apply binary_round_aux_scaled; try assumption. fold d. lia.
  - replace (d - 24 - k) with (- (24 - d) - k) by lia.
    apply binary_round_aux_scaled; try assumption; fold d; try lia.
    rewrite pos_iter_xO, HM, <- Z.mul_assoc, <- Z.pow_add_r by lia.
    f_equal. f_equal. lia.
Qed.

Lemma binary_normalize_scaled (z K k : Z) :
  0 <= K -> 0 <= k <= 100 -> Z.abs z < 2 ^ 24 ->
  binary_normalize prec32 emax32 (z * 2 ^ K) (- K - k) false = ratio_pow2 z k.
Proof.
  intros HK Hk Hz. pose proof (Z.pow_pos_nonneg 2 K ltac:(lia) HK) as Hpow.
  destruct z as [|q|q].
  - reflexivity.
  - destruct (Zpos q * 2 ^ K) as [|p|p] eqn:E; [lia| |lia].
    cbn [binary_normalize ratio_pow2]. apply binary_round_scaled; lia.
  - destruct (Zneg q * 2 ^ K) as [|p|p] eqn:E; [lia|lia|].
    cbn [binary_normalize ratio_pow2]. apply binary_round_scaled; lia.
Qed.

Lemma ratio_pow2_int (z : Z) : Z.abs z < 2 ^ 24 -> ratio_pow2 z 0 = float_of_int z.
Proof.
  intros Hz. unfold float_of_int.
  rewrite <- (binary_normalize_scaled z 0 0) by lia.
  f_equal. lia.
Qed.

Lemma ratio_pow2_shift (z k : Z) :
  0 <= k <= 100 -> Z.abs (z * 2 ^ k) < 2 ^ 24 ->
  ratio_pow2 (z * 2 ^ k) k = float_of_int z.
Proof.
  intros Hk Hz. pose proof (Z.pow_pos_nonneg 2 k ltac:(lia) ltac:(lia)) as Hpow.
  assert (Hz' : Z.abs z < 2 ^ 24) by nia.
  rewrite <- (binary_normalize_exact z k) by lia.
  rewrite <- (binary_normalize_scaled (z * 2 ^ k) 0 k) by lia.
  f_equal; lia.
Qed.

Lemma int32_of_ratio_pow2 (z k : Z) :
  0 <= k <= 100 -> Z.abs z < 2 ^ 24 ->
  int32_of_float (ratio_pow2 z k) = Z.quot z (2 ^ k).
Proof.
  intros Hk Hz. pose proof (Z.pow_pos_nonneg 2 k ltac:(lia) ltac:(lia)) as Hpow.
  assert (Hn : forall (s : bool) (n : positive), Zpos n < 2 ^ 24 ->
             int32_of_float (scaled s n k) = cond_Zopp s (Zpos n / 2 ^ k)).
  { intros s n Hn. pose proof (digits_le_24 n Hn) as Hd.
    unfold scaled, int32_of_float, ftrunc.
    set (d := Zpos (digits2_pos n)) in *.
    assert (Hdpos : 0 < d) by (subst d; lia).
    assert (Hshift : Z.shiftl (Zpos (Z.to_pos (Zpos n * 2 ^ (24 - d)))) (d - 24 - k)
                     = Zpos n / 2 ^ k).
    { subst d. rewrite canon_mantissa by assumption.
      rewrite <- Z.shiftr_opp_r, Z.shiftr_div_pow2 by lia.
      replace (- (Zpos (digits2_pos n) - 24 - k))
        with (k + (24 - Zpos (digits2_pos n))) by lia.
      rewrite Z.pow_add_r by lia.
      pose proof (Z.pow_pos_nonneg 2 (24 - Zpos (digits2_pos n)) ltac:(lia) ltac:(lia)).
      apply Z.div_mul_cancel_r; lia. }
    rewrite Hshift.
    assert (Hq : 0 <= Zpos n / 2 ^ k <= Zpos n).
    { split; [apply Z.div_pos; lia|]. apply Z.div_le_upper_bound; nia. }
    replace ((-2147483648 <=? cond_Zopp s (Zpos n / 2 ^ k))
             && (cond_Zopp s (Zpos n / 2 ^ k) <=? 2147483647)) with true; [reflexivity|].
    symmetry. apply andb_true_iff. change (2 ^ 24) with 16777216 in Hn.
    split; apply Z.leb_le; destruct s; simpl; lia. }
  destruct z as [|n|n]; cbn [ratio_pow2].
  - rewrite Z.quot_0_l by lia. reflexivity.
  - rewrite Hn by lia. cbn [cond_Zopp]. symmetry. apply Z.quot_div_nonneg; lia.
  - rewrite Hn by lia. cbn [cond_Zopp].
    change (Zneg n) with (- Zpos n). rewrite Z.quot_opp_l by lia.
    f_equal. symmetry. apply Z.quot_div_nonneg; lia.
Qed.

Lemma fmul_gain_pow2 (g k : Z) :
  0 <= k <= 100 -> Z.abs g < 2 ^ 24 ->
  fmul (float_of_int g) (gain_pow2 k) = ratio_pow2 g k.
Proof.
  intros Hk Hg.
  destruct (float_of_int_cases g Hg) as [[-> Ea] | (s & n & -> & Hn & Ea)].
  - reflexivity.
  - rewrite Ea. pose proof (digits_le_24 n Hn) as Hd.
    replace (ratio_pow2 (cond_Zopp s (Zpos n)) k) with (scaled s n k)
      by (destruct s; reflexivity).
    unfold canon. unfold fmul, SFmul, gain_pow2.
    replace (Zpos (digits2_pos n) - 24 + (-23 - k))
      with (- (47 - Zpos (digits2_pos n)) - k) by lia.
    rewrite xorb_false_r.
    apply binary_round_aux_scaled; try assumption; try lia.
    rewrite Pos2Z.inj_mul, canon_mantissa by assumption.
    change (Zpos 8388608) with (2 ^ 23).
    rewrite <- Z.mul_assoc, <- Z.pow_add_r by lia. f_equal. f_equal. lia.
Qed.

Lemma aligned_pow2 (x a b c : Z) :
  0 <= a -> 0 <= b -> a + b = c -> x * 2 ^ a * 2 ^ b = x * 2 ^ c.
Proof. intros Ha Hb <-. rewrite Z.pow_add_r by lia. ring. Qed.

Lemma fsub_ratio_pow2 (p g k : Z) :
  0 <= k <= 100 ->
  Z.abs p < 2 ^ 24 -> Z.abs g < 2 ^ 24 -> Z.abs (p * 2 ^ k - g) < 2 ^ 24 ->
  fsub (float_of_int p) (ratio_pow2 g k) = ratio_pow2 (p * 2 ^ k - g) k.
Proof.
  intros Hk Hp Hg Hpg. pose proof (Z.pow_pos_nonneg 2 k ltac:(lia) ltac:(lia)) as Hpow.
  destruct (float_of_int_cases p Hp) as [[-> Ep] | (sp & np & -> & Hnp & Ep)].
  - destruct g as [|n|n]; reflexivity.
  - destruct g as [|n|n].
    + rewrite Z.sub_0_r in *. rewrite ratio_pow2_shift by assumption.
      rewrite Ep. reflexivity.
    + rewrite Ep. cbn [ratio_pow2]. unfold canon, scaled, fsub, SFsub.
      pose proof (digits_le_24 np Hnp). pose proof (digits_le_24 n ltac:(lia)).
      set (ez := Z.min (Zpos (digits2_pos np) - 24) (Zpos (digits2_pos n) - 24 - k)).
      rewrite !shl_align_value by lia. rewrite !canon_mantissa by lia.
      cbn [cond_Zopp].
      replace (cond_Zopp sp (Zpos np * 2 ^ (24 - Zpos (digits2_pos np))
                             * 2 ^ (Zpos (digits2_pos np) - 24 - ez))
               - Zpos n * 2 ^ (24 - Zpos (digits2_pos n))
                 * 2 ^ (Zpos (digits2_pos n) - 24 - k - ez))
        with ((cond_Zopp sp (Zpos np) * 2 ^ k - Zpos n) * 2 ^ (- ez - k)).
      2:{ rewrite <- !cond_Zopp_mul, (aligned_pow2 _ _ _ (k + (- ez - k))),
            (aligned_pow2 _ _ _ (- ez - k)) by lia.
          rewrite Z.pow_add_r by lia. ring. }
      replace ez with (- (- ez - k) - k) at 2 by lia.
      apply binary_normalize_scaled; lia.
    + rewrite Ep. cbn [ratio_pow2]. unfold canon, scaled, fsub, SFsub.
      pose proof (digits_le_24 np Hnp). pose proof (digits_le_24 n ltac:(lia)).
      set (ez := Z.min (Zpos (digits2_pos np) - 24) (Zpos (digits2_pos n) - 24 - k)).
      rewrite !shl_align_value by lia. rewrite !canon_mantissa by lia.
      cbn [cond_Zopp].
      replace (cond_Zopp sp (Zpos np * 2 ^ (24 - Zpos (digits2_pos np))
                             * 2 ^ (Zpos (digits2_pos np) - 24 - ez))
               - - (Zpos n * 2 ^ (24 - Zpos (digits2_pos n))
                    * 2 ^ (Zpos (digits2_pos n) - 24 - k - ez)))
        with ((cond_Zopp sp (Zpos np) * 2 ^ k - Zneg n) * 2 ^ (- ez - k)).
      2:{ rewrite <- !cond_Zopp_mul, (aligned_pow2 _ _ _ (k + (- ez - k))),
            (aligned_pow2 _ _ _ (- ez - k)) by lia.
          rewrite Z.pow_add_r by lia. change (Zneg n) with (- Zpos n). ring. }
      replace ez with (- (- ez - k) - k) at 2 by lia.
      apply binary_normalize_scaled; lia.
Qed.

Lemma pidPTerm_pow2 (k PTerm : Z) (gyroADC : array Z) (axis : nat) :
  0 <= k <= 100 -> in_int16 (gyroADC axis) -> Z.abs (PTerm * 2 ^ k) <= 2 ^ 23 ->
  Stabilize.pidPTerm (gain_pow2 k) PTerm gyroADC axis
  = Z.quot (PTerm * 2 ^ k - gyroADC axis) (2 ^ k).
Proof.
  intros Hk Hg Hp. pose proof (Z.pow_pos_nonneg 2 k ltac:(lia) ltac:(lia)) as Hpow.
  unfold in_int16 in Hg. change (2 ^ 23) with 8388608 in Hp.
  assert (Hp' : Z.abs PTerm <= 8388608) by nia.
  unfold Stabilize.pidPTerm.
  rewrite fmul_gain_pow2 by (change (2 ^ 24) with 16777216; lia).
  rewrite fsub_ratio_pow2 by (change (2 ^ 24) with 16777216; lia).
  apply int32_of_ratio_pow2; [assumption|]. change (2 ^ 24) with 16777216. lia.
Qed.

(** C10. The correction returned by [Stabilize::computePid] is the 32-bit
    sum [(PTerm - gyro x rateP) + ITerm - DTerm + softwareTrim] narrowed to
    [int16_t], the damped P term being the float difference
    [PTerm - gyro x rateP] converted back to [int32_t].  The correction lies
    in the 16-bit range and differs from the sum by a multiple of [2^16], so
    a sum outside the range wraps around instead of being clamped.  For a
    rate gain [1 / 2^k], such as the simulator's 0.125, the damped P term is
    the quotient of [PTerm * 2^k - gyro] by [2^k], truncated toward zero.
    The same narrowing applies to the raw mix of each motor in
    [Mixer::update]. *)
Theorem narrowing_wraps :
  (forall (rateP : float) (PTerm ITerm DTerm : Z) (gyroADC : array Z) (axis : nat)
          (s : Stabilize.t),
      let damped :=
        int32_of_float (fsub (float_of_int PTerm)
                             (fmul (float_of_int (gyroADC axis)) rateP)) in
      let sum32 :=
        add32 (sub32 (add32 damped ITerm) DTerm)
              (softwareTrim (Stabilize.pidConfig s) axis) in
      let correction :=
        Stabilize.eval (Stabilize.computePid rateP PTerm ITerm DTerm gyroADC axis) s in
      correction = to_int16 sum32 /\
      in_int16 correction /\
      (sum32 - correction) mod 65536 = 0 /\
      (in_int16 sum32 <-> correction = sum32) /\
      correction =
        to_int16 (damped + ITerm - DTerm + softwareTrim (Stabilize.pidConfig s) axis)) /\
  (forall (k PTerm ITerm DTerm : Z) (gyroADC : array Z) (axis : nat) (s : Stabilize.t),
      0 <= k <= 23 ->
      in_int16 (gyroADC axis) ->
      Z.abs (PTerm * 2 ^ k) <= 2 ^ 23 ->
      let sum :=
        Z.quot (PTerm * 2 ^ k - gyroADC axis) (2 ^ k) + ITerm - DTerm
        + softwareTrim (Stabilize.pidConfig s) axis in
      let correction :=
        Stabilize.eval
          (Stabilize.computePid (gain_pow2 k) PTerm ITerm DTerm gyroADC axis) s in
      correction = to_int16 sum /\
      in_int16 correction /\
      (sum - correction) mod 65536 = 0 /\
      (in_int16 sum <-> correction = sum)) /\
  (forall (m : Mixer.t) (rc : RC) (stabilize : Stabilize.t) (i : nat),
      initialised m ->
      in_int16 (command rc DEMAND_THROTTLE) ->
      in_int16 (Stabilize.axisPID stabilize AXIS_PITCH) ->
      in_int16 (Stabilize.axisPID stabilize AXIS_ROLL) ->
      in_int16 (Stabilize.axisPID stabilize AXIS_YAW) ->
      (i < 4)%nat ->
      let raw := Mixer.rawMotors m rc stabilize i in
      raw = to_int16 (intMix m rc stabilize i) /\
      in_int16 raw /\
      (intMix m rc stabilize i - raw) mod 65536 = 0).
Proof.
  assert (Hnarrow : forall z c, c = to_int16 z ->
                      in_int16 c /\ (z - c) mod 65536 = 0 /\ (in_int16 z <-> c = z)).
  { intros z c ->.
    split; [apply to_int16_range|].
    split; [apply to_int16_residue|].
    split.
    - intros Hin. now apply to_int16_id.
    - intros <-. apply to_int16_range. }
  assert (Hpid : forall rateP PTerm ITerm DTerm gyroADC axis s,
             Stabilize.eval (Stabilize.computePid rateP PTerm ITerm DTerm gyroADC axis) s
             = to_int16 (Stabilize.pidPTerm rateP PTerm gyroADC axis + ITerm - DTerm
                         + softwareTrim (Stabilize.pidConfig s) axis)).
  { intros rateP PTerm ITerm DTerm gyroADC axis s.
    rewrite <- to_int16_sum32. destruct s. reflexivity. }
  split; [|split].
  - intros rateP PTerm ITerm DTerm gyroADC axis s damped sum32 correction.
    assert (Hc : correction = to_int16 sum32).
    { subst correction sum32 damped. destruct s. reflexivity. }
    split; [exact Hc|].
    destruct (Hnarrow sum32 correction Hc) as (H1 & H2 & H3).
    repeat (split; [assumption|]).
    subst correction. apply Hpid.
  - intros k PTerm ITerm DTerm gyroADC axis s Hk Hg Hp sum correction.
    assert (Hc : correction = to_int16 sum).
    { subst correction sum. rewrite Hpid, pidPTerm_pow2 by (assumption || lia).
      reflexivity. }
    split; [exact Hc|]. exact (Hnarrow sum correction Hc).
  - intros m rc stabilize i Hm Ht Hp Hr Hy Hi raw. subst raw.
    rewrite (rawMotors_intMix m rc stabilize i) by assumption.
    split; [reflexivity|].
    split; [apply to_int16_range | apply to_int16_residue].
Qed.

Lemma narrowing_wraps_witness :
  in_int16
    (Stabilize.eval
       (Stabilize.computePid (yawP simPidConfig) 30000 4000 (-1000)
                             (upd zeros AXIS_YAW (-801)) AXIS_YAW)
       simStabilize) /\
  Stabilize.eval
    (Stabilize.computePid (ratePitchrollP simPidConfig) 30000 4000 (-1000)
                          (upd zeros AXIS_ROLL (-801)) AXIS_ROLL)
    simStabilize = to_int16 35100 /\
  Mixer.rawMotors simMixer overflowingRC overflowingStabilize 2%nat = to_int16 35000.
Proof.
  split; [|split].
  - apply (proj1 narrowing_wraps (yawP simPidConfig) 30000 4000 (-1000)
                 (upd zeros AXIS_YAW (-801)) AXIS_YAW simStabilize).
  - change (ratePitchrollP simPidConfig) with (gain_pow2 3).
    destruct (proj1 (proj2 narrowing_wraps) 3 30000 4000 (-1000)
                    (upd zeros AXIS_ROLL (-801)) AXIS_ROLL simStabilize)
      as (-> & _).
    + lia.
    + vm_compute. split; discriminate.
    + vm_compute. discriminate.
    + vm_compute. reflexivity.
  - destruct (proj2 (proj2 narrowing_wraps) simMixer overflowingRC overflowingStabilize
                    2%nat)
      as (-> & _).
    + intros i Hi. destruct i as [|[|[|[|i]]]]; [| | | |lia]; reflexivity.
    + vm_compute. split; discriminate.
    + vm_compute. split; discriminate.
    + vm_compute. split; discriminate.
    + vm_compute. split; discriminate.
    + lia.
    + vm_compute. reflexivity.
Defined.

(** A roll rate of -801 with the gain 0.125 adds 100 to the P term of 30000:
    the sum 35100 does not fit 16 bits and comes back as -30436. *)
Example narrowing_35100 :
  Stabilize.eval
    (Stabilize.computePid (ratePitchrollP simPidConfig) 30000 4000 (-1000)
                          (upd zeros AXIS_ROLL (-801)) AXIS_ROLL)
    simStabilize = -30436.
Proof. vm_compute. reflexivity. Qed.

(** The sum 35000 does not fit 16 bits: it comes back as -30536, not as the
    largest [int16_t]. *)
Example narrowing_35000 : to_int16 35000 = -30536.
Proof. reflexivity. Qed.

(** ** The end-to-end scenarios of the mixer *)

(** Throttle 1500 and no correction: every motor gets 1500. *)
Example mixer_pure_throttle :
  Mixer.update simMixer
               {| command := upd zeros DEMAND_THROTTLE 1500; throttleIsDown := false |}
               simStabilize true
  = [(0%nat, 1500); (1%nat, 1500); (2%nat, 1500); (3%nat, 1500)].
Proof. vm_compute. reflexivity. Qed.

(** Raw mixes 1800, 1400, 2200, 1800: the overshoot of 200 is taken off
    every motor. *)
Example mixer_saturation :
  map (Mixer.rawMotors simMixer saturatingRC saturatingStabilize) (seq 0 4)
  = [1800; 1400; 2200; 1800] /\
  Mixer.update simMixer saturatingRC saturatingStabilize true
  = [(0%nat, 1600); (1%nat, 1200); (2%nat, 2000); (3%nat, 1600)].
Proof. split; vm_compute; reflexivity. Qed.

(** * Further properties of the stabilizer *)

(** ** What [init] establishes *)

(** X1. [Stabilize::init] stores the two configurations it is given, zeroes
    the five integrals and the gyro history of roll and pitch, and leaves
    the corrections as they were. *)
Theorem init_establishes (pid : PidConfig) (imu : ImuConfig) (s : Stabilize.t) :
  let s' := Stabilize.exec (Stabilize.init pid imu) s in
  Stabilize.pidConfig s' = pid /\
  Stabilize.imuConfig s' = imu /\
  (Stabilize.errorGyroI s' AXIS_ROLL = 0 /\ Stabilize.errorGyroI s' AXIS_PITCH = 0 /\
   Stabilize.errorGyroI s' AXIS_YAW = 0) /\
  (Stabilize.errorAngleI s' AXIS_ROLL = 0 /\ Stabilize.errorAngleI s' AXIS_PITCH = 0) /\
  zero_history s' /\
  Stabilize.axisPID s' = Stabilize.axisPID s.
Proof.
  destruct s as [ax lg d1 d2 eg ea imu0 cfg0].
  unfold zero_history. stab_run. read_arrays. repeat split.
Qed.

(** ** What [update] leaves alone *)

Lemma update_configs (rcCommand gyroADC : array Z) (eulerAngles : array float)
      (s : Stabilize.t) :
  let s' := Stabilize.exec (Stabilize.update rcCommand gyroADC eulerAngles) s in
  Stabilize.pidConfig s' = Stabilize.pidConfig s /\
  Stabilize.imuConfig s' = Stabilize.imuConfig s.
Proof.
  destruct s as [ax lg d1 d2 eg ea imu cfg].
  stab_run. split_guards; stab_run; split; reflexivity.
Qed.

Lemma runTicks_snoc (ticks : list tickInput) (t : tickInput) (s : Stabilize.t) :
  runTicks (ticks ++ [t]) s =
  Stabilize.exec (Stabilize.update (in_rcCommand t) (in_gyroADC t) (in_eulerAngles t))
                 (runTicks ticks s).
Proof. unfold runTicks. rewrite fold_left_app. reflexivity. Qed.

(** X2. However many ticks run after [init], the stabilizer still holds the
    two configurations [init] was given: [update] never writes them. *)
Theorem run_keeps_configs (pid : PidConfig) (imu : ImuConfig) (s : Stabilize.t)
        (ticks : list tickInput) :
  let s' := runTicks ticks (Stabilize.exec (Stabilize.init pid imu) s) in
  Stabilize.pidConfig s' = pid /\ Stabilize.imuConfig s' = imu.
Proof.
  induction ticks as [|t ticks IH] using rev_ind.
  - destruct s as [ax lg d1 d2 eg ea imu0 cfg0]. stab_run. split; reflexivity.
  - cbv zeta in *. rewrite runTicks_snoc.
    destruct (update_configs (in_rcCommand t) (in_gyroADC t) (in_eulerAngles t)
                (runTicks ticks (Stabilize.exec (Stabilize.init pid imu) s))) as [Hp Hi].
    cbv zeta in Hp, Hi. rewrite Hp, Hi. exact IH.
Qed.

(** ** The yaw clamp *)

Lemma constrain_cases (v lo hi : Z) :
  (v < lo /\ constrain v lo hi = lo) \/
  (lo <= v /\ hi < v /\ constrain v lo hi = hi) \/
  (lo <= v <= hi /\ constrain v lo hi = v).
Proof.
  unfold constrain.
  destruct (v <? lo) eqn:E1.
  - apply Z.ltb_lt in E1. left. split; [assumption | reflexivity].
  - apply Z.ltb_ge in E1. rewrite Z.gtb_ltb.
    destruct (hi <? v) eqn:E2.
    + apply Z.ltb_lt in E2. right. left. repeat split; assumption.
    + apply Z.ltb_ge in E2. right. right. repeat split; assumption.
Qed.

(** The clamp of a 16-bit value between [-100 - a] and [100 + a] is again a
    16-bit value, so storing it loses nothing. *)
Lemma yaw_clamp_int16 (v a : Z) :
  in_int16 v -> 0 <= a ->
  to_int16 (constrain v (-100 - a) (100 + a)) = constrain v (-100 - a) (100 + a).
Proof.
  intros Hv Ha. apply to_int16_id. unfold in_int16 in *.
  destruct (constrain_cases v (-100 - a) (100 + a))
    as [[H ->] | [(H1 & H2 & ->) | [H ->]]]; lia.
Qed.

(** X3. After every call of [Stabilize::update] the yaw correction is at
    most 100 plus the magnitude of the yaw stick demand, for all inputs
    and all prior states. *)
Theorem update_yaw_bounded
        (rcCommand gyroADC : array Z) (eulerAngles : array float) (s : Stabilize.t) :
  Z.abs (Stabilize.axisPID
           (Stabilize.exec (Stabilize.update rcCommand gyroADC eulerAngles) s) AXIS_YAW)
  <= 100 + Z.abs (rcCommand DEMAND_YAW).
Proof.
  destruct s as [ax lg d1 d2 eg ea imu cfg].
  stab_run. split_guards; stab_run; read_arrays;
    (rewrite yaw_clamp_int16; [|apply to_int16_range|lia]);
    match goal with
    | |- Z.abs (constrain ?v ?lo ?hi) <= _ =>
        pose proof (constrain_bounds v lo hi ltac:(lia)); lia
    end.
Qed.

(** ** The gyro history over several ticks *)

Lemma levelDTerm_eq (rcCommand gyroADC : array Z) (eulerAngles : array float)
      (axis : nat) (s : Stabilize.t) :
  levelDTerm rcCommand gyroADC eulerAngles axis s =
  int32_of_float
    (fmul (float_of_int (add32 (add32 (Stabilize.delta1 s axis) (Stabilize.delta2 s axis))
                               (gyroADC axis - Stabilize.lastGyro s axis)))
          (ratePitchrollD (Stabilize.pidConfig s))).
Proof.
  unfold levelDTerm. destruct s as [ax lg d1 d2 eg ea imu cfg].
  stab_run. split_guards; reflexivity.
Qed.

Lemma update_history (rcCommand gyroADC : array Z) (eulerAngles : array float)
      (s : Stabilize.t) (axis : nat) :
  axis = AXIS_ROLL \/ axis = AXIS_PITCH ->
  let s' := Stabilize.exec (Stabilize.update rcCommand gyroADC eulerAngles) s in
  Stabilize.lastGyro s' axis = gyroADC axis /\
  Stabilize.delta1 s' axis = gyroADC axis - Stabilize.lastGyro s axis /\
  Stabilize.delta2 s' axis = Stabilize.delta1 s axis.
Proof.
  intros Hax. destruct s as [ax lg d1 d2 eg ea imu cfg].
  destruct Hax as [-> | ->];
    stab_run; split_guards; stab_run; read_arrays; repeat split.
Qed.

(** X4. The three-sample sum telescopes: after two ticks, the derivative
    term of the third tick is the rate-D gain times the difference between
    the current gyro sample and the sample stored before the first of the
    three ticks. *)
Theorem derivative_telescopes
        (t1 t2 : tickInput) (rcCommand gyroADC : array Z) (eulerAngles : array float)
        (s : Stabilize.t) (axis : nat) :
  axis = AXIS_ROLL \/ axis = AXIS_PITCH ->
  in_int16 (Stabilize.lastGyro s axis) ->
  in_int16 (in_gyroADC t1 axis) ->
  in_int16 (in_gyroADC t2 axis) ->
  in_int16 (gyroADC axis) ->
  levelDTerm rcCommand gyroADC eulerAngles axis (runTicks [t1; t2] s) =
  int32_of_float
    (fmul (float_of_int (gyroADC axis - Stabilize.lastGyro s axis))
          (ratePitchrollD (Stabilize.pidConfig s))).
Proof.
  intros Hax H0 H1 H2 H3. rewrite levelDTerm_eq.
  cbn [runTicks fold_left].
  set (s1 := Stabilize.exec (Stabilize.update (in_rcCommand t1) (in_gyroADC t1)
                                              (in_eulerAngles t1)) s).
  destruct (update_history (in_rcCommand t2) (in_gyroADC t2) (in_eulerAngles t2) s1 axis Hax)
    as (L2 & D21 & D22).
  destruct (update_configs (in_rcCommand t2) (in_gyroADC t2) (in_eulerAngles t2) s1)
    as (C2 & _).
  destruct (update_history (in_rcCommand t1) (in_gyroADC t1) (in_eulerAngles t1) s axis Hax)
    as (L1 & D11 & _).
  destruct (update_configs (in_rcCommand t1) (in_gyroADC t1) (in_eulerAngles t1) s)
    as (C1 & _).
  cbv zeta in *. fold s1 in L1, D11, C1.
  rewrite L2, D21, D22, C2, L1, D11, C1.
  unfold add32, in_int16 in *.
  match goal with
  | |- context [to_int32 (to_int32 ?x + ?y)] =>
      rewrite (to_int32_id x) by (unfold in_int32; lia);
      rewrite (to_int32_id (x + y)) by (unfold in_int32; lia)
  end.
  do 3 f_equal. lia.
Qed.

Lemma derivative_telescopes_witness :
  let t1 := Build_tickInput zeros (upd zeros AXIS_ROLL 120) fzeros in
  let t2 := Build_tickInput zeros (upd zeros AXIS_ROLL (-40)) fzeros in
  levelDTerm zeros (upd zeros AXIS_ROLL 500) fzeros AXIS_ROLL (runTicks [t1; t2] steadyRoll) =
  int32_of_float
    (fmul (float_of_int (500 - 300)) (ratePitchrollD (Stabilize.pidConfig steadyRoll))).
Proof.
  intros t1 t2.
  apply (derivative_telescopes t1 t2 zeros (upd zeros AXIS_ROLL 500) fzeros steadyRoll
                               AXIS_ROLL).
  - left. reflexivity.
  - vm_compute. split; discriminate.
  - vm_compute. split; discriminate.
  - vm_compute. split; discriminate.
  - vm_compute. split; discriminate.
Defined.

(** ** The invariant kept between ticks *)

Lemma update_integrals_ok
      (rcCommand gyroADC : array Z) (eulerAngles : array float) (s : Stabilize.t) :
  integrals_ok (Stabilize.exec (Stabilize.update rcCommand gyroADC eulerAngles) s).
Proof.
  unfold integrals_ok. destruct s as [ax lg d1 d2 eg ea imu cfg].
  stab_run.
  split_guards; stab_run; read_arrays; repeat split;
    first [ apply (constrain_abs _ 16000); lia
          | apply (constrain_abs _ 10000); lia
          | simpl; lia ].
Qed.

Lemma update_history_ok
      (rcCommand gyroADC : array Z) (eulerAngles : array float) (s : Stabilize.t)
      (axis : nat) :
  axis = AXIS_ROLL \/ axis = AXIS_PITCH ->
  in_int16 (gyroADC axis) ->
  history_ok s axis ->
  history_ok (Stabilize.exec (Stabilize.update rcCommand gyroADC eulerAngles) s) axis.
Proof.
  intros Hax Hg (Hl & H1 & H2). unfold history_ok.
  destruct (update_history rcCommand gyroADC eulerAngles s axis Hax) as (-> & -> & ->).
  unfold in_int16 in *. repeat split; lia.
Qed.

Lemma init_inv (pid : PidConfig) (imu : ImuConfig) (s : Stabilize.t) :
  stabilize_inv (Stabilize.exec (Stabilize.init pid imu) s).
Proof.
  destruct s as [ax lg d1 d2 eg ea imu0 cfg0].
  unfold stabilize_inv, integrals_ok, history_ok, in_int16.
  stab_run. read_arrays. simpl. lia.
Qed.

Lemma runTicks_inv (ticks : list tickInput) (s : Stabilize.t) :
  Forall gyro_ok ticks -> stabilize_inv s -> stabilize_inv (runTicks ticks s).
Proof.
  revert s. induction ticks as [|t ticks IH]; intros s Hticks Hinv.
  - exact Hinv.
  - inversion Hticks as [|t' ticks' [Hr Hp] Hrest]; subst.
    cbn [runTicks fold_left]. apply IH; [assumption|].
    destruct Hinv as (_ & Hroll & Hpitch).
    split; [apply update_integrals_ok|].
    split; apply update_history_ok; auto.
Qed.

(** X5. From [init] on, whatever ticks follow with [int16_t] gyro samples,
    the state between ticks keeps its invariant: the integrals within their
    windup bounds, the last gyro sample a 16-bit value and both stored
    deltas at most 65535 in magnitude; so the three-delta sum of the next
    tick never overflows 32 bits. *)
Theorem reachable_invariant (pid : PidConfig) (imu : ImuConfig) (s0 : Stabilize.t)
        (ticks : list tickInput) (gyroADC : array Z) (axis : nat) :
  Forall gyro_ok ticks ->
  axis = AXIS_ROLL \/ axis = AXIS_PITCH ->
  in_int16 (gyroADC axis) ->
  let s := runTicks ticks (Stabilize.exec (Stabilize.init pid imu) s0) in
  stabilize_inv s /\
  add32 (add32 (Stabilize.delta1 s axis) (Stabilize.delta2 s axis))
        (gyroADC axis - Stabilize.lastGyro s axis)
  = Stabilize.delta1 s axis + Stabilize.delta2 s axis
    + (gyroADC axis - Stabilize.lastGyro s axis).
Proof.
  intros Hticks Hax Hg s.
  assert (Hinv : stabilize_inv s) by (apply runTicks_inv; [assumption | apply init_inv]).
  split; [exact Hinv|].
  destruct Hinv as (_ & Hroll & Hpitch).
  assert (Hh : history_ok s axis) by (destruct Hax as [-> | ->]; assumption).
  destruct Hh as (Hl & H1 & H2). unfold add32, in_int16 in *.
  rewrite (to_int32_id (_ + Stabilize.delta2 s axis)) by (unfold in_int32; lia).
  apply to_int32_id. unfold in_int32. lia.
Qed.

Lemma reachable_invariant_witness :
  let ticks := [Build_tickInput zeros (upd zeros AXIS_ROLL 32767) fzeros;
                Build_tickInput zeros (upd zeros AXIS_ROLL (-32768)) fzeros] in
  let gyroADC := upd zeros AXIS_ROLL 32767 in
  let s := runTicks ticks (Stabilize.exec (Stabilize.init simPidConfig simImuConfig)
                                          blankStabilize) in
  stabilize_inv s /\
  add32 (add32 (Stabilize.delta1 s AXIS_ROLL) (Stabilize.delta2 s AXIS_ROLL))
        (gyroADC AXIS_ROLL - Stabilize.lastGyro s AXIS_ROLL)
  = Stabilize.delta1 s AXIS_ROLL + Stabilize.delta2 s AXIS_ROLL
    + (gyroADC AXIS_ROLL - Stabilize.lastGyro s AXIS_ROLL).
Proof.
  intros ticks gyroADC.
  apply (reachable_invariant simPidConfig simImuConfig blankStabilize ticks gyroADC
                             AXIS_ROLL).
  - repeat constructor; vm_compute; discriminate.
  - left. reflexivity.
  - vm_compute. split; discriminate.
Defined.

(** ** What the corrections do not depend on *)

(** X6. The angle integral is accumulated but never read into a correction:
    two states that differ only in [errorAngleI] get the same three
    corrections from [update], for all inputs. *)
Theorem corrections_ignore_angle_integral
        (rcCommand gyroADC : array Z) (eulerAngles : array float) (s : Stabilize.t)
        (errorAngleI' : array Z) :
  Stabilize.axisPID (Stabilize.exec (Stabilize.update rcCommand gyroADC eulerAngles)
                                    (with_errorAngleI s errorAngleI'))
  = Stabilize.axisPID (Stabilize.exec (Stabilize.update rcCommand gyroADC eulerAngles) s).
Proof.
  destruct s as [ax lg d1 d2 eg ea imu cfg]. unfold with_errorAngleI.
  stab_run. split_guards; reflexivity.
Qed.

Lemma mul32_0_r (a : Z) : mul32 a 0 = 0.
Proof. unfold mul32. rewrite Z.mul_0_r. reflexivity. Qed.

(** X7. With the roll and pitch sticks centred the levelled axes are pure
    self-levelling: the roll and pitch corrections of [update] do not depend
    on the rate integrals. *)
Theorem centred_sticks_ignore_rate_integral
        (rcCommand gyroADC : array Z) (eulerAngles : array float) (s : Stabilize.t)
        (errorGyroI' : array Z) :
  rcCommand DEMAND_ROLL = 0 ->
  rcCommand DEMAND_PITCH = 0 ->
  let run s := Stabilize.axisPID
                 (Stabilize.exec (Stabilize.update rcCommand gyroADC eulerAngles) s) in
  run (with_errorGyroI s errorGyroI') AXIS_ROLL = run s AXIS_ROLL /\
  run (with_errorGyroI s errorGyroI') AXIS_PITCH = run s AXIS_PITCH.
Proof.
  intros Hr Hp run. subst run. cbv beta.
  destruct s as [ax lg d1 d2 eg ea imu cfg]. unfold with_errorGyroI.
  stab_run. rewrite Hr, Hp. change (Z.max (Z.abs 0) (Z.abs 0)) with 0.
  split_guards; stab_run; read_arrays; rewrite !mul32_0_r; split; reflexivity.
Qed.

Lemma centred_sticks_ignore_rate_integral_witness :
  let gyroADC := upd zeros AXIS_ROLL 300 in
  let run s := Stabilize.axisPID
                 (Stabilize.exec (Stabilize.update zeros gyroADC fzeros) s) in
  run (with_errorGyroI woundStabilize zeros) AXIS_ROLL = run woundStabilize AXIS_ROLL /\
  run (with_errorGyroI woundStabilize zeros) AXIS_PITCH = run woundStabilize AXIS_PITCH.
Proof.
  intros gyroADC.
  apply (centred_sticks_ignore_rate_integral zeros gyroADC fzeros woundStabilize zeros).
  - reflexivity.
  - reflexivity.
Defined.

(** X8. While the windup guard of an axis holds, [computeITermGyro]
    contributes nothing: with a finite I gain it returns 0. *)
Theorem computeITermGyro_guarded_zero
        (rateP rateI : float) (rcCommand gyroADC : array Z) (axis : nat) (s : Stabilize.t) :
  guard_holds rcCommand gyroADC axis ->
  is_finite rateI = true ->
  Stabilize.eval (Stabilize.computeITermGyro rateP rateI rcCommand gyroADC axis) s = 0.
Proof.
  intros Hg HI. apply guard_holds_true in Hg.
  destruct s as [ax lg d1 d2 eg ea imu cfg].
  stab_run. rewrite Hg. stab_run. rewrite upd_same.
  rewrite zero_gain_product by assumption. reflexivity.
Qed.

Lemma computeITermGyro_guarded_zero_witness :
  Stabilize.eval
    (Stabilize.computeITermGyro (yawP simPidConfig) (yawI simPidConfig)
                                (upd zeros DEMAND_YAW 250) zeros AXIS_YAW)
    woundStabilize = 0.
Proof.
  apply computeITermGyro_guarded_zero.
  - right. split; [reflexivity|]. vm_compute. reflexivity.
  - reflexivity.
Defined.

(** * Further properties of the mixer *)

(** ** What [init] establishes *)

Lemma init_motorsDisarmed (cfg : PwmConfig) (m : Mixer.t) (i : nat) :
  (i < 4)%nat -> Mixer.motorsDisarmed (Mixer.init cfg m) i = to_int16 (min cfg).
Proof.
  intros Hi. unfold Mixer.init. cbn [Mixer.motorsDisarmed fold_left seq].
  destruct i as [|[|[|[|i]]]]; [| | | |lia]; reflexivity.
Qed.

(** X9. [Mixer::init] binds the quad-X table and the PWM range and sets the
    four disarmed values to the PWM minimum; so a mixer fresh from [init]
    writes the PWM minimum to every motor while disarmed. *)
Theorem init_then_disarmed (cfg : PwmConfig) (m : Mixer.t) (rc : RC)
        (stabilize : Stabilize.t) :
  in_int16 (min cfg) ->
  initialised (Mixer.init cfg m) /\
  Mixer.pwmConfig (Mixer.init cfg m) = cfg /\
  Mixer.update (Mixer.init cfg m) rc stabilize false =
  [(0%nat, min cfg); (1%nat, min cfg); (2%nat, min cfg); (3%nat, min cfg)].
Proof.
  intros Hmin. split; [intros i Hi; reflexivity|]. split; [reflexivity|].
  rewrite update_writes. unfold motorCommand. cbv [negb map].
  rewrite !init_motorsDisarmed by lia. rewrite (to_int16_id _ Hmin). reflexivity.
Qed.

Lemma init_then_disarmed_witness :
  initialised (Mixer.init simPwmConfig gcsMixer) /\
  Mixer.pwmConfig (Mixer.init simPwmConfig gcsMixer) = simPwmConfig /\
  Mixer.update (Mixer.init simPwmConfig gcsMixer) saturatingRC saturatingStabilize false =
  [(0%nat, 1000); (1%nat, 1000); (2%nat, 1000); (3%nat, 1000)].
Proof.
  apply (init_then_disarmed simPwmConfig gcsMixer saturatingRC saturatingStabilize).
  vm_compute. split; discriminate.
Defined.

(** ** Armed, throttle up *)

(** The command of a motor whose raw mix needs neither redistribution nor
    clamp is the raw mix. *)
Lemma motorCommand_passthrough (m : Mixer.t) (rc : RC) (mx v : Z) (i : nat) :
  throttleIsDown rc = false ->
  mx <= max (Mixer.pwmConfig m) ->
  in_int16 v ->
  min (Mixer.pwmConfig m) <= v <= max (Mixer.pwmConfig m) ->
  motorCommand m rc true mx v i = v.
Proof.
  intros Hdown Hmx Hv Hin. unfold motorCommand, Mixer.redistribute.
  rewrite Hdown. cbv [negb].
  replace (mx >? max (Mixer.pwmConfig m)) with false
    by (symmetry; rewrite Z.gtb_ltb; apply Z.ltb_ge; assumption).
  rewrite constrain_inside by assumption. now apply to_int16_id.
Qed.

Lemma maxMotor_le (motors : array Z) (b : Z) :
  (forall i, (i < 4)%nat -> motors i <= b) -> Mixer.maxMotor motors <= b.
Proof.
  intros H. destruct (maxMotor_in motors) as (i & Hi & ->). now apply H.
Qed.

Lemma update_passthrough (m : Mixer.t) (rc : RC) (stabilize : Stabilize.t) :
  throttleIsDown rc = false ->
  (forall i, (i < 4)%nat ->
             min (Mixer.pwmConfig m) <= Mixer.rawMotors m rc stabilize i
             <= max (Mixer.pwmConfig m)) ->
  Mixer.update m rc stabilize true =
  map (fun i => (i, Mixer.rawMotors m rc stabilize i)) [0%nat; 1%nat; 2%nat; 3%nat].
Proof.
  intros Hdown Hin. rewrite update_writes. cbv [map].
  assert (Hmx : Mixer.maxMotor (Mixer.rawMotors m rc stabilize)
                <= max (Mixer.pwmConfig m)).
  { apply maxMotor_le. intros i Hi. apply Hin. assumption. }
  rewrite !motorCommand_passthrough;
    auto using rawMotors_int16 with zarith; try apply Hin; try apply rawMotors_int16; lia.
Qed.

(** X10. Armed and with the throttle not down, when every raw mix lies in
    the PWM range the mixer changes nothing: each motor is written its raw
    mix. *)
Theorem update_in_range_is_raw (m : Mixer.t) (rc : RC) (stabilize : Stabilize.t) :
  throttleIsDown rc = false ->
  (forall i, (i < 4)%nat ->
             min (Mixer.pwmConfig m) <= Mixer.rawMotors m rc stabilize i
             <= max (Mixer.pwmConfig m)) ->
  Mixer.update m rc stabilize true =
  [(0%nat, Mixer.rawMotors m rc stabilize 0%nat);
   (1%nat, Mixer.rawMotors m rc stabilize 1%nat);
   (2%nat, Mixer.rawMotors m rc stabilize 2%nat);
   (3%nat, Mixer.rawMotors m rc stabilize 3%nat)].
Proof. intros Hdown Hin. now rewrite update_passthrough. Qed.

Lemma update_in_range_is_raw_witness :
  Mixer.update simMixer cruisingRC cruisingStabilize true =
  [(0%nat, Mixer.rawMotors simMixer cruisingRC cruisingStabilize 0%nat);
   (1%nat, Mixer.rawMotors simMixer cruisingRC cruisingStabilize 1%nat);
   (2%nat, Mixer.rawMotors simMixer cruisingRC cruisingStabilize 2%nat);
   (3%nat, Mixer.rawMotors simMixer cruisingRC cruisingStabilize 3%nat)].
Proof.
  apply (update_in_range_is_raw simMixer cruisingRC cruisingStabilize).
  - reflexivity.
  - intros i Hi. destruct i as [|[|[|[|i]]]]; [| | | |lia];
      vm_compute; split; discriminate.
Defined.

(** X11. Armed and with the throttle not down, when the largest raw mix
    exceeds the PWM maximum, a motor whose raw mix is that largest one is
    written exactly the PWM maximum. *)
Theorem saturated_motor_at_max (m : Mixer.t) (rc : RC) (stabilize : Stabilize.t)
        (i : nat) :
  let raw := Mixer.rawMotors m rc stabilize in
  (i < 4)%nat ->
  throttleIsDown rc = false ->
  in_int16 (max (Mixer.pwmConfig m)) ->
  min (Mixer.pwmConfig m) <= max (Mixer.pwmConfig m) ->
  Mixer.maxMotor raw > max (Mixer.pwmConfig m) ->
  raw i = Mixer.maxMotor raw ->
  Mixer.finalMotors m rc stabilize true i = max (Mixer.pwmConfig m).
Proof.
  intros raw Hi Hdown Hmax Hle Hsat Htop.
  rewrite finalMotors_at by assumption. fold raw.
  unfold motorCommand, Mixer.redistribute. rewrite Hdown. cbv [negb].
  replace (Mixer.maxMotor raw >? max (Mixer.pwmConfig m)) with true
    by (symmetry; rewrite Z.gtb_ltb; apply Z.ltb_lt; lia).
  rewrite Htop.
  replace (Mixer.maxMotor raw - (Mixer.maxMotor raw - max (Mixer.pwmConfig m)))
    with (max (Mixer.pwmConfig m)) by lia.
  rewrite (to_int16_id _ Hmax), constrain_inside by lia.
  now apply to_int16_id.
Qed.

Lemma saturated_motor_at_max_witness :
  Mixer.finalMotors simMixer saturatingRC saturatingStabilize true 2%nat = 2000.
Proof.
  apply (saturated_motor_at_max simMixer saturatingRC saturatingStabilize 2).
  - lia.
  - reflexivity.
  - vm_compute. split; discriminate.
  - vm_compute. discriminate.
  - vm_compute. reflexivity.
  - vm_compute. reflexivity.
Defined.

(** ** The mixing table *)

Lemma intMix_quadX (m : Mixer.t) (rc : RC) (stabilize : Stabilize.t) :
  initialised m ->
  let t := command rc DEMAND_THROTTLE in
  let p := Stabilize.axisPID stabilize AXIS_PITCH in
  let r := Stabilize.axisPID stabilize AXIS_ROLL in
  let y := Stabilize.axisPID stabilize AXIS_YAW in
  intMix m rc stabilize 0 = t + p - r + y /\
  intMix m rc stabilize 1 = t - p - r - y /\
  intMix m rc stabilize 2 = t + p + r - y /\
  intMix m rc stabilize 3 = t - p + r + y.
Proof.
  intros Hm t p r y. unfold intMix.
  rewrite (Hm 0%nat), (Hm 1%nat), (Hm 2%nat), (Hm 3%nat) by lia.
  cbn [Mixer.quadX Mixer.throttle Mixer.roll Mixer.pitch Mixer.yaw].
  change (coefficient Mixer.plus1) with 1. change (coefficient Mixer.minus1) with (-1).
  fold t p r y. repeat split; lia.
Qed.

(** X12. With the table of [init] and zero corrections, the raw mix of
    every motor is the throttle demand; armed, with the throttle not down
    and the demand inside the PWM range, all four motors are written the
    throttle demand. *)
Theorem zero_corrections_pure_throttle (m : Mixer.t) (rc : RC) (stabilize : Stabilize.t) :
  initialised m ->
  zero_axes (Stabilize.axisPID stabilize) ->
  in_int16 (command rc DEMAND_THROTTLE) ->
  throttleIsDown rc = false ->
  min (Mixer.pwmConfig m) <= command rc DEMAND_THROTTLE <= max (Mixer.pwmConfig m) ->
  Mixer.update m rc stabilize true =
  [(0%nat, command rc DEMAND_THROTTLE); (1%nat, command rc DEMAND_THROTTLE);
   (2%nat, command rc DEMAND_THROTTLE); (3%nat, command rc DEMAND_THROTTLE)].
Proof.
  intros Hm (Hr & Hp & Hy) Ht Hdown Hin.
  assert (Hraw : forall i, (i < 4)%nat ->
                           Mixer.rawMotors m rc stabilize i = command rc DEMAND_THROTTLE).
  { intros i Hi.
    rewrite rawMotors_intMix; try assumption;
      try (rewrite ?Hr, ?Hp, ?Hy; unfold in_int16; lia).
    destruct (intMix_quadX m rc stabilize Hm) as (E0 & E1 & E2 & E3).
    cbv zeta in *. rewrite Hr, Hp, Hy in *.
    destruct i as [|[|[|[|i]]]]; [| | | |lia];
      rewrite ?E0, ?E1, ?E2, ?E3;
      rewrite <- (to_int16_id _ Ht) at 2; f_equal; lia. }
  rewrite update_passthrough; try assumption.
  - cbv [map]. rewrite !Hraw by lia. reflexivity.
  - intros i Hi. rewrite Hraw by assumption. assumption.
Qed.

Lemma zero_corrections_pure_throttle_witness :
  Mixer.update simMixer cruisingRC simStabilize true =
  [(0%nat, 1500); (1%nat, 1500); (2%nat, 1500); (3%nat, 1500)].
Proof.
  apply (zero_corrections_pure_throttle simMixer cruisingRC simStabilize).
  - intros i Hi. destruct i as [|[|[|[|i]]]]; [| | | |lia]; reflexivity.
  - vm_compute. repeat split.
  - vm_compute. split; discriminate.
  - reflexivity.
  - vm_compute. split; discriminate.
Defined.

(** X13. The mix can be undone: with the table of [init], as long as no raw
    mix leaves the 16-bit range, the sum of the four raw mixes is four times
    the throttle demand, and the three signed sums over the motor pairs give
    four times the roll, the pitch and the yaw correction. *)
Theorem mix_inverts (m : Mixer.t) (rc : RC) (stabilize : Stabilize.t) :
  let raw := Mixer.rawMotors m rc stabilize in
  initialised m ->
  in_int16 (command rc DEMAND_THROTTLE) ->
  in_int16 (Stabilize.axisPID stabilize AXIS_PITCH) ->
  in_int16 (Stabilize.axisPID stabilize AXIS_ROLL) ->
  in_int16 (Stabilize.axisPID stabilize AXIS_YAW) ->
  (forall i, (i < 4)%nat -> in_int16 (intMix m rc stabilize i)) ->
  raw 0%nat + raw 1%nat + raw 2%nat + raw 3%nat = 4 * command rc DEMAND_THROTTLE /\
  (raw 2%nat + raw 3%nat) - (raw 0%nat + raw 1%nat)
  = 4 * Stabilize.axisPID stabilize AXIS_ROLL /\
  (raw 0%nat + raw 2%nat) - (raw 1%nat + raw 3%nat)
  = 4 * Stabilize.axisPID stabilize AXIS_PITCH /\
  (raw 0%nat + raw 3%nat) - (raw 1%nat + raw 2%nat)
  = 4 * Stabilize.axisPID stabilize AXIS_YAW.
Proof.
  intros raw Hm Ht Hp Hr Hy Hfit. subst raw.
  rewrite !rawMotors_intMix by (assumption || lia).
  rewrite !to_int16_id by (apply Hfit; lia).
  destruct (intMix_quadX m rc stabilize Hm) as (E0 & E1 & E2 & E3).
  cbv zeta in *. rewrite E0, E1, E2, E3. repeat split; lia.
Qed.

Lemma mix_inverts_witness :
  let raw := Mixer.rawMotors simMixer cruisingRC cruisingStabilize in
  raw 0%nat + raw 1%nat + raw 2%nat + raw 3%nat = 4 * 1500 /\
  (raw 2%nat + raw 3%nat) - (raw 0%nat + raw 1%nat) = 4 * 100 /\
  (raw 0%nat + raw 2%nat) - (raw 1%nat + raw 3%nat) = 4 * (-50) /\
  (raw 0%nat + raw 3%nat) - (raw 1%nat + raw 2%nat) = 4 * 30.
Proof.
  apply (mix_inverts simMixer cruisingRC cruisingStabilize).
  - intros i Hi. destruct i as [|[|[|[|i]]]]; [| | | |lia]; reflexivity.
  - vm_compute. split; discriminate.
  - vm_compute. split; discriminate.
  - vm_compute. split; discriminate.
  - vm_compute. split; discriminate.
  - intros i Hi. destruct i as [|[|[|[|i]]]]; [| | | |lia];
      vm_compute; split; discriminate.
Defined.

(** ** The order of the motors *)

Lemma constrain_mono (a b lo hi : Z) :
  lo <= hi -> a <= b -> constrain a lo hi <= constrain b lo hi.
Proof.
  intros Hle Hab.
  destruct (constrain_cases a lo hi) as [[Ha ->] | [(Ha1 & Ha2 & ->) | [Ha ->]]];
    destruct (constrain_cases b lo hi) as [[Hb ->] | [(Hb1 & Hb2 & ->) | [Hb ->]]];
    lia.
Qed.

(** X14. Armed and with the throttle not down, the mixer never reverses two
    motors whose raw mixes are not negative: the motor with the smaller raw
    mix is written the smaller or the same command, with or without
    saturation. *)
Theorem mixer_keeps_order (m : Mixer.t) (rc : RC) (stabilize : Stabilize.t) (i j : nat) :
  let raw := Mixer.rawMotors m rc stabilize in
  let final := Mixer.finalMotors m rc stabilize true in
  (i < 4)%nat -> (j < 4)%nat ->
  throttleIsDown rc = false ->
  in_int16 (min (Mixer.pwmConfig m)) ->
  in_int16 (max (Mixer.pwmConfig m)) ->
  min (Mixer.pwmConfig m) <= max (Mixer.pwmConfig m) ->
  0 <= max (Mixer.pwmConfig m) ->
  0 <= raw i <= raw j ->
  final i <= final j.
Proof.
  intros raw final Hi Hj Hdown Hmin Hmax Hle Hhi Hraw. subst final.
  rewrite !finalMotors_at by assumption. fold raw.
  unfold motorCommand. rewrite Hdown. cbv [negb].
  set (lo := min (Mixer.pwmConfig m)) in *.
  set (hi := max (Mixer.pwmConfig m)) in *.
  assert (Hstore : forall v, to_int16 (constrain v lo hi) = constrain v lo hi).
  { intros v. apply to_int16_id. pose proof (constrain_bounds v lo hi Hle).
    unfold in_int16 in *. lia. }
  rewrite !Hstore. apply constrain_mono; [assumption|].
  unfold Mixer.redistribute. fold hi.
  destruct (Mixer.maxMotor raw >? hi); [|lia].
  destruct (maxMotor_in raw) as (n & Hn & Hmx).
  pose proof (rawMotors_int16 m rc stabilize n Hn) as Hrn. fold raw in Hrn.
  pose proof (maxMotor_ge raw i Hi). pose proof (maxMotor_ge raw j Hj).
  rewrite <- Hmx in Hrn. unfold in_int16 in *.
  rewrite !to_int16_id by (unfold in_int16; lia). lia.
Qed.

Lemma mixer_keeps_order_witness :
  Mixer.finalMotors simMixer saturatingRC saturatingStabilize true 1%nat
  <= Mixer.finalMotors simMixer saturatingRC saturatingStabilize true 2%nat.
Proof.
  apply (mixer_keeps_order simMixer saturatingRC saturatingStabilize 1 2).
  - lia.
  - lia.
  - reflexivity.
  - vm_compute. split; discriminate.
  - vm_compute. split; discriminate.
  - vm_compute. discriminate.
  - vm_compute. discriminate.
  - vm_compute. split; discriminate.
Defined.

(** * The simulator plugin, first version *)

(** ** Looking a robot up by its handle *)

Lemma searchFrom_spec (robs : list SimWin32.sBubbleRob) (h i : Z) :
  0 <= i -> i + Z.of_nat (length robs) <= 2147483647 ->
  (SimWin32.searchFrom i robs h = -1 /\
   Forall (fun rob => SimWin32.handle rob <> h) robs) \/
  (exists k rob,
      SimWin32.searchFrom i robs h = i + Z.of_nat k /\
      nth_error robs k = Some rob /\
      SimWin32.handle rob = h /\
      Forall (fun rob' => SimWin32.handle rob' <> h) (firstn k robs)).
Proof.
  revert i. induction robs as [|rob rest IH]; intros i Hi Hlen.
  - left. split; [reflexivity | constructor].
  - cbn [SimWin32.searchFrom]. cbn [length] in Hlen.
    destruct (SimWin32.handle rob =? h) eqn:E.
    + apply Z.eqb_eq in E. right. exists 0%nat, rob.
      rewrite to_int32_id by (unfold in_int32; lia).
      repeat split; [lia | assumption | constructor].
    + apply Z.eqb_neq in E.
      destruct (IH (i + 1)) as [[Hr Hall] | (k & rob' & Hr & Hn & Hh & Hbefore)];
        try lia.
      * left. split; [assumption | constructor; assumption].
      * right. exists (S k), rob'. repeat split; try assumption.
        -- rewrite Hr. lia.
        -- cbn [firstn]. constructor; assumption.
Qed.

(** X15. [getBubbleRobIndexFromHandle] returns -1 exactly when no robot of
    the list has the handle; otherwise it returns the index of the first
    robot that has it. *)
Theorem getBubbleRobIndexFromHandle_spec (robs : list SimWin32.sBubbleRob) (h : Z) :
  Z.of_nat (length robs) <= 2147483647 ->
  let r := SimWin32.getBubbleRobIndexFromHandle robs h in
  (r = -1 <-> Forall (fun rob => SimWin32.handle rob <> h) robs) /\
  (r <> -1 ->
   exists k rob, r = Z.of_nat k /\ nth_error robs k = Some rob /\
                 SimWin32.handle rob = h /\
                 Forall (fun rob' => SimWin32.handle rob' <> h) (firstn k robs)).
Proof.
  intros Hlen r. subst r. unfold SimWin32.getBubbleRobIndexFromHandle.
  destruct (searchFrom_spec robs h 0 ltac:(lia) ltac:(lia))
    as [[Hr Hall] | (k & rob & Hr & Hn & Hh & Hbefore)].
  - rewrite Hr. split; [split; auto|]. intros H. now elim H.
  - rewrite Hr. split.
    + split; [lia|]. intros Hall. exfalso.
      rewrite Forall_forall in Hall. apply (Hall rob); [|assumption].
      eapply nth_error_In. eassumption.
    + intros _. exists k, rob. repeat split; assumption.
Qed.

Lemma getBubbleRobIndexFromHandle_spec_witness :
  let rob h := SimWin32.Build_sBubbleRob h zeros 0 fzeros fzero fzero 0 in
  let robs := [rob 7; rob 3; rob 9; rob 3] in
  let r := SimWin32.getBubbleRobIndexFromHandle robs 3 in
  (r = -1 <-> Forall (fun rob => SimWin32.handle rob <> 3) robs) /\
  (r <> -1 ->
   exists k rob, r = Z.of_nat k /\ nth_error robs k = Some rob /\
                 SimWin32.handle rob = 3 /\
                 Forall (fun rob' => SimWin32.handle rob' <> 3) (firstn k robs)).
Proof.
  intros rob robs.
  apply (getBubbleRobIndexFromHandle_spec robs 3).
  vm_compute. discriminate.
Defined.

(** ** The keyboard of the first version *)

(** X16. [keyboardChange] leaves the changed demand between -1000 and 1000
    whatever it was and whatever the direction, and touches no other
    demand. *)
Theorem keyboardChange_bounded (index : nat) (dir : Z) (demands : array Z) :
  -1000 <= SimWin32.keyboardChange index dir demands index <= 1000 /\
  (forall j, j <> index -> SimWin32.keyboardChange index dir demands j = demands j).
Proof.
  unfold SimWin32.keyboardChange. cbv zeta.
  rewrite !upd_same.
  set (v := add32 (demands index) (mul32 dir SimWin32.KEYBOARD_INC)).
  destruct (v >? 1000) eqn:E1.
  - rewrite upd_same. cbn [Z.ltb Z.compare]. rewrite upd_same.
    split; [lia|]. intros j Hj. now rewrite !upd_other.
  - rewrite upd_same. rewrite Z.gtb_ltb in E1. apply Z.ltb_ge in E1.
    destruct (v <? -1000) eqn:E2.
    + rewrite upd_same. split; [lia|]. intros j Hj. now rewrite !upd_other.
    + apply Z.ltb_ge in E2. rewrite upd_same.
      split; [lia|]. intros j Hj. now rewrite upd_other.
Qed.

Lemma keyboardIncrement_value (index : nat) (demands : array Z) :
  -1000 <= demands index <= 1000 ->
  SimWin32.keyboardIncrement index demands index = Z.min 1000 (demands index + 10).
Proof.
  intros Hd. unfold SimWin32.keyboardIncrement, SimWin32.keyboardChange. cbv zeta.
  rewrite !upd_same. change (mul32 1 SimWin32.KEYBOARD_INC) with 10.
  unfold add32. rewrite to_int32_id by (unfold in_int32; lia).
  destruct (demands index + 10 >? 1000) eqn:E1.
  - rewrite Z.gtb_ltb in E1. apply Z.ltb_lt in E1.
    rewrite upd_same. cbn [Z.ltb Z.compare]. rewrite upd_same. lia.
  - rewrite Z.gtb_ltb in E1. apply Z.ltb_ge in E1. rewrite upd_same.
    destruct (demands index + 10 <? -1000) eqn:E2.
    + apply Z.ltb_lt in E2. lia.
    + rewrite upd_same. lia.
Qed.

Lemma keyboardDecrement_value (index : nat) (demands : array Z) :
  -1000 <= demands index <= 1000 ->
  SimWin32.keyboardDecrement index demands index = Z.max (-1000) (demands index - 10).
Proof.
  intros Hd. unfold SimWin32.keyboardDecrement, SimWin32.keyboardChange. cbv zeta.
  rewrite !upd_same. change (mul32 (-1) SimWin32.KEYBOARD_INC) with (-10).
  unfold add32. rewrite to_int32_id by (unfold in_int32; lia).
  destruct (demands index + -10 >? 1000) eqn:E1.
  - rewrite Z.gtb_ltb in E1. apply Z.ltb_lt in E1. lia.
  - rewrite upd_same.
    destruct (demands index + -10 <? -1000) eqn:E2.
    + apply Z.ltb_lt in E2. rewrite upd_same. lia.
    + apply Z.ltb_ge in E2. rewrite upd_same. lia.
Qed.

(** X17. On a demand between -1000 and 1000 the two keys move by 10 and
    stop at the limits: an increment followed by a decrement gives the
    demand back unless the increment hit the upper limit, where the demand
    stays at 1000. *)
Theorem keyboard_round_trip (index : nat) (demands : array Z) :
  -1000 <= demands index <= 1000 ->
  let up := SimWin32.keyboardIncrement index demands in
  (demands index <= 990 ->
   up index = demands index + 10 /\
   SimWin32.keyboardDecrement index up index = demands index) /\
  (990 <= demands index ->
   up index = 1000 /\ SimWin32.keyboardIncrement index up index = 1000).
Proof.
  intros Hd up.
  assert (Hup : up index = Z.min 1000 (demands index + 10))
    by (apply keyboardIncrement_value; assumption).
  split.
  - intros Hlow. split; [lia|].
    rewrite keyboardDecrement_value by lia. lia.
  - intros Hhigh. split; [lia|].
    rewrite keyboardIncrement_value by lia. lia.
Qed.

Lemma keyboard_round_trip_witness :
  let demands := upd zeros 3 (-1000) in
  let up := SimWin32.keyboardIncrement 3 demands in
  (demands 3%nat <= 990 ->
   up 3%nat = demands 3%nat + 10 /\
   SimWin32.keyboardDecrement 3 up 3%nat = demands 3%nat) /\
  (990 <= demands 3%nat ->
   up 3%nat = 1000 /\ SimWin32.keyboardIncrement 3 up 3%nat = 1000).
Proof.
  intros demands.
  apply (keyboard_round_trip 3 demands).
  vm_compute. split; discriminate.
Defined.

(** ** Scaling a joystick axis *)

(** *** Exact conversions in any format *)

Section ExactGeneric.

Variables prec emax : Z.
Hypothesis Hprec : 0 < prec.
Hypothesis Hemax : prec <= emax.
Hypothesis Hemax2 : 2 <= emax.

Lemma digits_le_prec (n : positive) : Zpos n < 2 ^ prec -> Zpos (digits2_pos n) <= prec.
Proof.
  intros Hn. rewrite digits_log2.
  assert (Z.log2 (Zpos n) < prec) by (apply Z.log2_lt_pow2; lia). lia.
Qed.

Lemma fexp_gen (e : Z) : 3 - emax <= e -> fexp prec emax e = e - prec.
Proof. intros He. unfold fexp, emin. lia. Qed.

Lemma binary_round_aux_exact_gen (s : bool) (M n : positive) (j : Z) :
  0 <= j -> Zpos M = Zpos n * 2 ^ j -> Zpos n < 2 ^ prec ->
  prec <= Zpos (digits2_pos n) + j ->
  binary_round_aux prec emax s (Zpos M) (- j) loc_Exact = canon_gen prec s n.
Proof.
  intros Hj HM Hn Hd.
  pose proof (digits_le_prec n Hn) as Hdp.
  pose proof (digits_shift n M j Hj HM) as HdM.
  set (d := Zpos (digits2_pos n)) in *.
  assert (Hdpos : 0 < d) by (subst d; lia).
  assert (HM' : exists M', Zpos M' = Zpos n * 2 ^ (prec - d)).
  { exists (Z.to_pos (Zpos n * 2 ^ (prec - d))). rewrite Z2Pos.id; [reflexivity|].
    pose proof (Z.pow_pos_nonneg 2 (prec - d)). lia. }
  destruct HM' as (M' & HM').
  assert (HdM' : Zpos (digits2_pos M') = prec).
  { rewrite (digits_shift n M' (prec - d)) by (assumption || lia). fold d. lia. }
  assert (Hshr : shr_fexp prec emax (Zpos M) (- j) loc_Exact =
                 (Build_shr_record (Zpos M') false false, d - prec)).
  { unfold shr_fexp. cbn [Zdigits2 shr_record_of_loc].
    rewrite HdM, fexp_gen by lia.
    replace (d + j + - j - prec - - j) with (d + j - prec) by lia.
    destruct (d + j - prec) as [|t|t] eqn:Et; [| |lia].
    - cbn [shr]. f_equal; [|lia]. f_equal.
      rewrite HM, HM'. f_equal. f_equal. lia.
    - cbn [shr]. f_equal; [|lia].
      rewrite iter_pos_nat. rewrite <- (shr_1_exact (Pos.to_nat t) M').
      f_equal. f_equal. rewrite positive_nat_Z, HM, HM', <- Et.
      rewrite <- Z.mul_assoc, <- Z.pow_add_r by lia. f_equal. f_equal. lia. }
  unfold binary_round_aux. rewrite Hshr.
  cbn [shr_m loc_of_shr_record round_nearest_even].
  unfold shr_fexp. cbn [Zdigits2 shr_record_of_loc].
  rewrite HdM', fexp_gen by lia.
  replace (prec + (d - prec) - prec - (d - prec)) with 0 by lia.
  cbn [shr shr_m].
  replace (d - prec <=? emax - prec) with true by (symmetry; apply Z.leb_le; lia).
  unfold canon_gen. fold d. rewrite <- HM', Pos2Z.id. reflexivity.
Qed.

Lemma binary_round_exact_gen (s : bool) (M n : positive) (k : Z) :
  0 <= k -> Zpos M = Zpos n * 2 ^ k -> Zpos n < 2 ^ prec ->
  binary_round prec emax s M (- k) = canon_gen prec s n.
Proof.
  intros Hk HM Hn.
  pose proof (digits_le_prec n Hn) as Hdp.
  pose proof (digits_shift n M k Hk HM) as HdM.
  set (d := Zpos (digits2_pos n)) in *.
  assert (Hdpos : 0 < d) by (subst d; lia).
  unfold binary_round. rewrite HdM, fexp_gen by lia.
  replace (d + k + - k - prec) with (d - prec) by lia.
  unfold shl_align.
  destruct (d - prec - - k) as [|t|t] eqn:Et.
  - apply binary_round_aux_exact_gen; try assumption. fold d. lia.
  - apply binary_round_aux_exact_gen; try assumption. fold d. lia.
  - replace (d - prec) with (- (prec - d)) by lia.
    apply binary_round_aux_exact_gen; try assumption; fold d; try lia.
    rewrite pos_iter_xO, HM, <- Z.mul_assoc, <- Z.pow_add_r by lia.
    f_equal. f_equal. lia.
Qed.

End ExactGeneric.

(** ** Rounding a quotient of 53 or 54 digits *)

Lemma Zdigits2_eq (q D : Z) :
  0 < D -> 2 ^ (D - 1) <= q < 2 ^ D -> Zdigits2 q = D.
Proof.
  intros HD Hq. assert (Hpos : 0 < q) by (pose proof (Z.pow_pos_nonneg 2 (D - 1)); lia).
  destruct q as [|p|p]; try lia. cbn [Zdigits2]. rewrite digits_log2.
  rewrite (Z.log2_unique (Zpos p) (D - 1)); try lia.
  replace (Z.succ (D - 1)) with D by lia. assumption.
Qed.

Lemma round_nearest_even_step (m : Z) (l : location) :
  round_nearest_even m l = m \/ round_nearest_even m l = m + 1.
Proof.
  destruct l as [|[| |]]; cbn; auto. destruct (Z.even m); auto.
Qed.

Lemma loc_of_shr_record_of_loc (m : Z) (l : location) :
  loc_of_shr_record (shr_record_of_loc m l) = l /\ shr_m (shr_record_of_loc m l) = m.
Proof. destruct l as [|[| |]]; split; reflexivity. Qed.

Lemma shr_1_half (mrs : shr_record) :
  0 <= shr_m mrs -> shr_m (shr_1 mrs) = shr_m mrs / 2.
Proof.
  intros Hm. rewrite <- Z.div2_div. destruct mrs as [m r s]. cbn [shr_m] in *.
  destruct m as [|[p|p|]|p]; try reflexivity. lia.
Qed.

(** The second half of [binary_round_aux]: a mantissa between [2^52] and
    [2^53] is kept, or halved when it is [2^53]. *)
Lemma round_finish (s : bool) (m1 e : Z) :
  2 ^ 52 <= m1 <= 2 ^ 53 -> -1000 <= e <= 900 ->
  exists m e2,
    (let '(mrs'', e'') := shr_fexp prec64 emax64 m1 e loc_Exact in
     match shr_m mrs'' with
     | Z0 => S754_zero s
     | Zpos m => if e'' <=? emax64 - prec64 then S754_finite s m e'' else S754_infinity s
     | Zneg _ => S754_nan
     end) = S754_finite s m e2 /\
    e <= e2 <= e + 1 /\ Zpos m * 2 ^ (e2 - e) = m1.
Proof.
  intros Hm He. change (2 ^ 52) with 4503599627370496 in *.
  change (2 ^ 53) with 9007199254740992 in *.
  assert (Hcase : m1 < 9007199254740992 \/ m1 = 9007199254740992) by lia.
  destruct Hcase as [Hlt | ->].
  - unfold shr_fexp. rewrite (Zdigits2_eq m1 53) by (cbn; lia).
    unfold fexp, emin, prec64, emax64.
    replace (Z.max (53 + e - 53) (3 - 1024 - 53) - e) with 0 by lia.
    cbn [shr shr_record_of_loc shr_m].
    destruct m1 as [|p|p]; try lia.
    exists p, e. replace (e <=? 1024 - 53) with true by (symmetry; apply Z.leb_le; lia).
    split; [reflexivity|]. split; [lia|]. rewrite Z.sub_diag. lia.
  - unfold shr_fexp. rewrite (Zdigits2_eq 9007199254740992 54) by (cbn; lia).
    unfold fexp, emin, prec64, emax64.
    replace (Z.max (54 + e - 53) (3 - 1024 - 53) - e) with 1 by lia.
    cbn [shr shr_record_of_loc shr_m iter_pos shr_1].
    exists 4503599627370496%positive, (e + 1).
    replace (e + 1 <=? 1024 - 53) with true by (symmetry; apply Z.leb_le; lia).
    split; [reflexivity|]. split; [lia|].
    replace (e + 1 - e) with 1 by lia. reflexivity.
Qed.

(** Rounding a mantissa of 53 or 54 digits moves it by at most two units,
    and never below its even part. *)
Lemma binary_round_aux_near (s : bool) (q e : Z) (l : location) :
  2 ^ 52 <= q < 2 ^ 54 -> -1000 <= e <= 800 ->
  exists m e2,
    binary_round_aux prec64 emax64 s q e l = S754_finite s m e2 /\
    e <= e2 <= e + 2 /\
    2 * (q / 2) <= Zpos m * 2 ^ (e2 - e) <= q + 2.
Proof.
  intros Hq He. change (2 ^ 52) with 4503599627370496 in *.
  change (2 ^ 54) with 18014398509481984 in *.
  pose proof (Z.div_mod q 2 ltac:(lia)) as Hdm.
  pose proof (Z.mod_pos_bound q 2 ltac:(lia)) as Hmod.
  unfold binary_round_aux.
  assert (Hcase : q < 9007199254740992 \/ 9007199254740992 <= q) by lia.
  destruct Hcase as [Hlt | Hge].
  - (* 53 digits: no first shift *)
    unfold shr_fexp at 1. rewrite (Zdigits2_eq q 53) by (cbn; lia).
    unfold fexp at 1. unfold emin, prec64, emax64.
    replace (Z.max (53 + e - 53) (3 - 1024 - 53) - e) with 0 by lia.
    cbn [shr].
    destruct (loc_of_shr_record_of_loc q l) as [-> ->].
    destruct (round_nearest_even_step q l) as [-> | ->].
    + destruct (round_finish s q e) as (m & e2 & Hr & He2 & Hv);
        [cbn; lia | lia |].
      exists m, e2. split; [exact Hr|]. split; [lia|]. rewrite Hv. lia.
    + destruct (round_finish s (q + 1) e) as (m & e2 & Hr & He2 & Hv);
        [cbn; lia | lia |].
      exists m, e2. split; [exact Hr|]. split; [lia|]. rewrite Hv. lia.
  - (* 54 digits: one first shift *)
    unfold shr_fexp at 1. rewrite (Zdigits2_eq q 54) by (cbn; lia).
    unfold fexp at 1. unfold emin, prec64, emax64.
    replace (Z.max (54 + e - 53) (3 - 1024 - 53) - e) with 1 by lia.
    cbn [shr iter_pos].
    assert (Hh : shr_m (shr_1 (shr_record_of_loc q l)) = q / 2).
    { rewrite shr_1_half; destruct (loc_of_shr_record_of_loc q l) as [_ ->];
        [reflexivity | lia]. }
    rewrite Hh.
    destruct (round_nearest_even_step (q / 2)
                (loc_of_shr_record (shr_1 (shr_record_of_loc q l)))) as [-> | ->].
    + destruct (round_finish s (q / 2) (e + 1)) as (m & e2 & Hr & He2 & Hv);
        [cbn; lia | lia |].
      exists m, e2. split; [exact Hr|]. split; [lia|].
      replace (e2 - e) with (1 + (e2 - (e + 1))) by lia.
      rewrite Z.pow_add_r by lia. change (2 ^ 1) with 2.
      replace (Zpos m * (2 * 2 ^ (e2 - (e + 1)))) with (2 * (Zpos m * 2 ^ (e2 - (e + 1))))
        by lia.
      rewrite Hv. lia.
    + destruct (round_finish s (q / 2 + 1) (e + 1)) as (m & e2 & Hr & He2 & Hv);
        [cbn; lia | lia |].
      exists m, e2. split; [exact Hr|]. split; [lia|].
      replace (e2 - e) with (1 + (e2 - (e + 1))) by lia.
      rewrite Z.pow_add_r by lia. change (2 ^ 1) with 2.
      replace (Zpos m * (2 * 2 ^ (e2 - (e + 1)))) with (2 * (Zpos m * 2 ^ (e2 - (e + 1))))
        by lia.
      rewrite Hv. lia.
Qed.

(** ** The quotient by 32767 *)

Lemma digits_bounds (n : positive) :
  2 ^ (Zpos (digits2_pos n) - 1) <= Zpos n < 2 ^ Zpos (digits2_pos n).
Proof.
  rewrite digits_log2. pose proof (Z.log2_spec (Zpos n) ltac:(lia)) as H.
  replace (Z.log2 (Zpos n) + 1 - 1) with (Z.log2 (Zpos n)) by lia.
  replace (Z.log2 (Zpos n) + 1) with (Z.succ (Z.log2 (Zpos n))) by lia. exact H.
Qed.

(** An integer scaled up to 68 bits lies between [2^67] and [2^68]. *)
Lemma scaled_bounds (n : positive) :
  Zpos (digits2_pos n) <= 25 ->
  2 ^ 67 <= Zpos n * 2 ^ (68 - Zpos (digits2_pos n)) < 2 ^ 68.
Proof.
  intros Hd. pose proof (digits_bounds n) as [Hlo Hhi].
  set (d := Zpos (digits2_pos n)) in *.
  assert (Hdpos : 0 < d) by (subst d; lia).
  pose proof (Z.pow_pos_nonneg 2 (68 - d) ltac:(lia) ltac:(lia)) as Hp.
  split.
  - replace 67 with ((d - 1) + (68 - d)) by lia. rewrite Z.pow_add_r by lia.
    apply Z.mul_le_mono_nonneg_r; lia.
  - replace 68 with (d + (68 - d)) at 2 by lia. rewrite Z.pow_add_r by lia.
    apply Z.mul_lt_mono_pos_r; lia.
Qed.

(** The float quotient of an integer below [2^25] by 32767, truncated, is
    the integer quotient. *)
Lemma scale_div (s : bool) (n : positive) :
  Zpos n < 2 ^ 25 ->
  int32_of_double (ddiv (canon_gen prec64 s n) (double_of_int 32767)) =
  cond_Zopp s (Zpos n / 32767).
Proof.
  intros Hn.
  pose proof (digits_le_prec 25 n Hn) as Hd.
  pose proof (scaled_bounds n Hd) as HN.
  set (d := Zpos (digits2_pos n)) in *.
  assert (Hdpos : 0 < d) by (subst d; lia).
  set (k := 68 - d) in *.
  set (P := 2 ^ k) in *.
  assert (HP : 2 ^ 43 <= P).
  { subst P. apply Z.pow_le_mono_r; lia. }
  change (2 ^ 43) with 8796093022208 in HP.
  change (2 ^ 67) with 147573952589676412928 in HN.
  change (2 ^ 68) with 295147905179352825856 in HN.
  (* the mantissa of the numerator *)
  assert (HM1 : exists M1, Zpos M1 = Zpos n * 2 ^ (53 - d)).
  { exists (Z.to_pos (Zpos n * 2 ^ (53 - d))). rewrite Z2Pos.id; [reflexivity|].
    pose proof (Z.pow_pos_nonneg 2 (53 - d)). lia. }
  destruct HM1 as (M1 & HM1).
  assert (HdM1 : Zpos (digits2_pos M1) = 53).
  { rewrite (digits_shift n M1 (53 - d)) by (assumption || lia). fold d. lia. }
  unfold canon_gen. fold d. unfold prec64 at 1 2. rewrite <- HM1, Pos2Z.id.
  change (double_of_int 32767) with (S754_finite false 9006924376834048 (-38)).
  unfold ddiv, SFdiv, SFdiv_core_binary. cbn [Zdigits2]. rewrite HdM1.
  change (Zpos (digits2_pos 9006924376834048)) with 53.
  unfold fexp, emin, prec64, emax64.
  replace (Z.min (Z.max (53 + (d - 53) - (53 + -38) - 53) (3 - 1024 - 53)) (d - 53 - -38))
    with (d - 68) by lia.
  replace (d - 53 - -38 - (d - 68)) with 53 by lia.
  (* the quotient *)
  set (q := Z.shiftl (Zpos M1) 53 / Zpos 9006924376834048).
  assert (Hq : q = Zpos n * P / 32767).
  { subst q. rewrite Z.shiftl_mul_pow2, HM1 by lia.
    replace (Zpos n * 2 ^ (53 - d) * 2 ^ 53) with (Zpos n * P * 2 ^ 38).
    2:{ subst P k. rewrite <- !Z.mul_assoc, <- !Z.pow_add_r by lia.
        f_equal. f_equal. lia. }
    change (Zpos 9006924376834048) with (32767 * 2 ^ 38).
    apply Z.div_mul_cancel_r; [lia | cbn; lia]. }
  assert (Hdiv : Z.div_eucl (Z.shiftl (Zpos M1) 53) (Zpos 9006924376834048) =
                 (q, Z.shiftl (Zpos M1) 53 mod Zpos 9006924376834048)).
  { subst q. unfold Z.div, Z.modulo.
    destruct (Z.div_eucl (Z.shiftl (Zpos M1) 53) (Zpos 9006924376834048)). reflexivity. }
  rewrite Hdiv. clear Hdiv.
  (* its size *)
  pose proof (Z.div_mod (Zpos n * P) 32767 ltac:(lia)) as HdmN.
  pose proof (Z.mod_pos_bound (Zpos n * P) 32767 ltac:(lia)) as HmodN.
  rewrite <- Hq in HdmN.
  assert (Hqb : 2 ^ 52 <= q < 2 ^ 54).
  { change (2 ^ 52) with 4503599627370496. change (2 ^ 54) with 18014398509481984. lia. }
  destruct (binary_round_aux_near (xorb s false) q (d - 68)
              (new_location (Zpos 9006924376834048)
                            (Z.shiftl (Zpos M1) 53 mod Zpos 9006924376834048))
              Hqb ltac:(lia)) as (m & e2 & Hr & He2 & HV).
  change prec64 with 53 in Hr. change emax64 with 1024 in Hr.
  rewrite Hr, xorb_false_r. clear Hr.
  (* the integer quotient *)
  set (Q := Zpos n / 32767).
  pose proof (Z.div_mod (Zpos n) 32767 ltac:(lia)) as Hdmn.
  pose proof (Z.mod_pos_bound (Zpos n) 32767 ltac:(lia)) as Hmodn.
  fold Q in Hdmn. set (rho := Zpos n mod 32767) in *.
  assert (HQ0 : 0 <= Q) by (subst Q; apply Z.div_pos; lia).
  assert (HQP : 0 <= Q * P) by (apply Z.mul_nonneg_nonneg; lia).
  assert (HrP : 0 <= rho * P <= 32766 * P).
  { split; [apply Z.mul_nonneg_nonneg; lia|]. apply Z.mul_le_mono_nonneg_r; lia. }
  assert (HnP : Zpos n * P = 32767 * (Q * P) + rho * P) by (rewrite Hdmn at 1; ring).
  (* the rounded value lies in the same unit interval *)
  set (V := Zpos m * 2 ^ (e2 - (d - 68))) in *.
  assert (Hlow : Q * P <= 2 * (q / 2)).
  { assert (Hhalf : Q * 2 ^ (k - 1) <= q / 2).
    { apply Z.div_le_lower_bound; [lia|].
      replace (2 * (Q * 2 ^ (k - 1))) with (Q * P).
      2:{ subst P. replace k with (1 + (k - 1)) at 1 by lia.
          rewrite Z.pow_add_r by (subst k; lia). change (2 ^ 1) with 2. ring. }
      lia. }
    replace (Q * P) with (2 * (Q * 2 ^ (k - 1))).
    2:{ subst P. replace k with (1 + (k - 1)) at 2 by lia.
        rewrite Z.pow_add_r by (subst k; lia). change (2 ^ 1) with 2. ring. }
    lia. }
  assert (HVQ : Q * P <= V < (Q + 1) * P) by lia.
  (* truncation *)
  unfold int32_of_double, int32_of_float, ftrunc.
  assert (Htr : Z.shiftl (Zpos m) e2 = Q).
  { rewrite Z.shiftl_div_pow2 by lia.
    assert (Hj : 0 <= e2 - (d - 68) <= 2) by lia.
    pose proof (Z.pow_pos_nonneg 2 (e2 - (d - 68)) ltac:(lia) ltac:(lia)) as Hpj.
    rewrite <- (Z.div_mul_cancel_r (Zpos m) (2 ^ (- e2)) (2 ^ (e2 - (d - 68))));
      [|pose proof (Z.pow_pos_nonneg 2 (- e2)); lia | lia].
    fold V. rewrite <- Z.pow_add_r by lia.
    replace (- e2 + (e2 - (d - 68))) with k by (subst k; lia). fold P.
    symmetry. apply (Z.div_unique V P Q (V - Q * P)); [left; lia | ring]. }
  rewrite Htr.
  assert (HQb : Q < 2 ^ 25).
  { subst Q. apply Z.div_lt_upper_bound; [lia|].
    change (2 ^ 25) with 33554432 in *. lia. }
  change (2 ^ 25) with 33554432 in HQb.
  replace ((-2147483648 <=? cond_Zopp s Q) && (cond_Zopp s Q <=? 2147483647)) with true;
    [reflexivity|].
  symmetry. apply andb_true_iff. split; apply Z.leb_le; destruct s; cbn; lia.
Qed.

Lemma double_of_int_sign (a : Z) (s : bool) (n : positive) :
  a = cond_Zopp s (Zpos n) -> Zpos n < 2 ^ 53 ->
  double_of_int a = canon_gen prec64 s n.
Proof.
  intros -> Hn. unfold double_of_int.
  destruct s; cbn [cond_Zopp Z.opp binary_normalize].
  - apply (binary_round_exact_gen prec64 emax64) with (k := 0);
      unfold prec64, emax64; lia.
  - apply (binary_round_exact_gen prec64 emax64) with (k := 0);
      unfold prec64, emax64; lia.
Qed.

(** X18. For every 16-bit joystick reading, [scaleAxis] returns the
    reading times 1000 divided by 32767 and truncated toward zero, as exact
    integer division would: the detour through a double loses nothing, and
    the demand lies between -1000 and 1000. *)
Theorem scaleAxis_spec (value : Z) :
  in_int16 value ->
  SimWin32.scaleAxis value = Z.quot (1000 * value) 32767 /\
  -1000 <= SimWin32.scaleAxis value <= 1000.
Proof.
  intros Hv. unfold in_int16 in Hv.
  assert (Heq : SimWin32.scaleAxis value = Z.quot (1000 * value) 32767).
  { unfold SimWin32.scaleAxis, mul32.
    rewrite to_int32_id by (unfold in_int32; lia).
    destruct (1000 * value) as [|n|n] eqn:E.
    - reflexivity.
    - rewrite double_of_int_sign with (s := false) (n := n)
        by (reflexivity || (change (2 ^ 53) with 9007199254740992; lia)).
      rewrite scale_div by (change (2 ^ 25) with 33554432; lia).
      rewrite Z.quot_div_nonneg by lia. reflexivity.
    - rewrite double_of_int_sign with (s := true) (n := n)
        by (reflexivity || (change (2 ^ 53) with 9007199254740992; lia)).
      rewrite scale_div by (change (2 ^ 25) with 33554432; lia).
      change (Zneg n) with (- Zpos n).
      rewrite Z.quot_opp_l, Z.quot_div_nonneg by lia. reflexivity. }
  split; [exact Heq|]. rewrite Heq.
  assert (Hq : forall a, 0 <= a <= 32768000 -> 0 <= Z.quot a 32767 <= 1000).
  { intros a Ha. rewrite Z.quot_div_nonneg by lia. split.
    - apply Z.div_pos; lia.
    - assert (a / 32767 < 1001) by (apply Z.div_lt_upper_bound; lia). lia. }
  assert (Hcase : 0 <= 1000 * value \/ 1000 * value < 0) by lia.
  destruct Hcase as [Hpos | Hneg].
  - pose proof (Hq (1000 * value) ltac:(lia)). lia.
  - pose proof (Hq (- (1000 * value)) ltac:(lia)) as H.
    rewrite Z.quot_opp_l in H by lia. lia.
Qed.

Lemma scaleAxis_spec_witness :
  SimWin32.scaleAxis 12345 = Z.quot (1000 * 12345) 32767 /\
  -1000 <= SimWin32.scaleAxis 12345 <= 1000.
Proof.
  apply (scaleAxis_spec 12345).
  vm_compute. split; discriminate.
Defined.

(** * The simulator plugin, V-REP version *)

(** ** Floats: sums are never a NaN out of nothing *)

Lemma shr_1_nonneg (mrs : shr_record) : 0 <= shr_m mrs -> 0 <= shr_m (shr_1 mrs).
Proof.
  destruct mrs as [m r s]. cbn [shr_m]. intros Hm.
  destruct m as [|[p|p|]|p]; cbn; lia.
Qed.

Lemma iter_shr_1_nonneg (n : nat) (mrs : shr_record) :
  0 <= shr_m mrs -> 0 <= shr_m (Nat.iter n shr_1 mrs).
Proof.
  intros Hm. induction n as [|n IH]; [assumption|].
  cbn [Nat.iter nat_rect]. apply shr_1_nonneg. exact IH.
Qed.

Lemma shr_fexp_nonneg (prec emax m e : Z) (l : location) :
  0 <= m -> 0 <= shr_m (fst (shr_fexp prec emax m e l)).
Proof.
  intros Hm. unfold shr_fexp, shr.
  assert (H0 : 0 <= shr_m (shr_record_of_loc m l)) by (destruct l as [|[| |]]; exact Hm).
  destruct (fexp prec emax (Zdigits2 m + e) - e) as [|p|p]; cbn [fst]; try assumption.
  rewrite iter_pos_nat. now apply iter_shr_1_nonneg.
Qed.

Lemma round_nearest_even_nonneg (m : Z) (l : location) :
  0 <= m -> 0 <= round_nearest_even m l.
Proof.
  intros Hm. destruct l as [|[| |]]; cbn; try lia.
  destruct (Z.even m); lia.
Qed.

Lemma binary_round_aux_not_nan (prec emax : Z) (s : bool) (m e : Z) (l : location) :
  0 <= m -> binary_round_aux prec emax s m e l <> S754_nan.
Proof.
  intros Hm. unfold binary_round_aux.
  pose proof (shr_fexp_nonneg prec emax m e l Hm) as H1.
  destruct (shr_fexp prec emax m e l) as [mrs' e']. cbn [fst] in H1.
  pose proof (shr_fexp_nonneg prec emax
                (round_nearest_even (shr_m mrs') (loc_of_shr_record mrs')) e' loc_Exact
                (round_nearest_even_nonneg _ _ H1)) as H2.
  destruct (shr_fexp prec emax (round_nearest_even (shr_m mrs') (loc_of_shr_record mrs'))
                     e' loc_Exact) as [mrs'' e''].
  cbn [fst] in H2.
  destruct (shr_m mrs'') as [|p|p]; try discriminate; try lia.
  destruct (e'' <=? emax - prec); discriminate.
Qed.

Lemma binary_normalize_not_nan (prec emax m e : Z) (sz : bool) :
  binary_normalize prec emax m e sz <> S754_nan.
Proof.
  destruct m as [|p|p]; cbn [binary_normalize]; try discriminate;
    unfold binary_round;
    destruct (shl_align p e (fexp prec emax (Zpos (digits2_pos p) + e))) as [mz ez];
    apply binary_round_aux_not_nan; lia.
Qed.

(** Adding a finite number to anything but a NaN does not give a NaN. *)
Lemma fadd_not_nan (x y : float) :
  x <> S754_nan -> is_finite y = true -> fadd x y <> S754_nan.
Proof.
  intros Hx Hy. unfold fadd.
  destruct x as [sx|sx| |sx mx ex], y as [sy|sy| |sy my ey];
    try discriminate; try congruence; cbn [SFadd].
  - destruct sx, sy; discriminate.
  - apply binary_normalize_not_nan.
Qed.

(** ** Float comparisons *)

Lemma SFcompare_swap (a b : float) :
  SFcompare b a = option_map CompOpp (SFcompare a b).
Proof.
  destruct a as [sa|sa| |sa ma ea], b as [sb|sb| |sb mb eb]; cbn;
    try reflexivity;
    try (destruct sa; reflexivity); try (destruct sb; reflexivity);
    try (destruct sa, sb; reflexivity).
  pose proof (Pos.compare_cont_antisym ma mb Eq) as Hm. cbn [CompOpp] in Hm.
  destruct sa, sb; try reflexivity;
    rewrite (Z.compare_antisym ea eb); destruct (ea ?= eb); cbn; try reflexivity;
    rewrite <- Hm; destruct (Pos.compare_cont Eq ma mb); reflexivity.
Qed.

(** A float that is neither a NaN, nor above 1, nor below -1 lies between
    -1 and 1. *)
Lemma not_outside_in_unit (f : float) :
  f <> S754_nan ->
  fgtb f (float_of_int 1) = false ->
  fltb f (float_of_int (-1)) = false ->
  in_unit f.
Proof.
  unfold in_unit, fgtb, fltb, fleb, SFltb, SFleb. intros Hnan Hgt Hlt.
  rewrite (SFcompare_swap f (float_of_int 1)) in Hgt.
  rewrite (SFcompare_swap f (float_of_int (-1))).
  assert (Hc : forall c, SFcompare f c <> None \/ (f = S754_nan \/ c = S754_nan)).
  { intros c. destruct f, c; cbn; auto; left; discriminate. }
  split.
  - destruct (Hc (float_of_int (-1))) as [H | [H | H]];
      [|contradiction|discriminate H].
    destruct (SFcompare f (float_of_int (-1))) as [[| |]|];
      cbn in *; congruence.
  - destruct (Hc (float_of_int 1)) as [H | [H | H]];
      [|contradiction|discriminate H].
    destruct (SFcompare f (float_of_int 1)) as [[| |]|];
      cbn in *; congruence.
Qed.

Lemma in_unit_not_nan (f : float) : in_unit f -> f <> S754_nan.
Proof. intros [H _] ->. discriminate H. Qed.

(** ** The keyboard *)

Lemma kbchange_other (index j : nat) (dir : Z) (demands : array float) :
  j <> index -> SimVrep.kbchange index dir demands j = demands j.
Proof.
  intros Hj. unfold SimVrep.kbchange. cbv zeta.
  repeat match goal with
         | |- context [if ?c then _ else _] => destruct c
         end;
    now rewrite ?upd_other.
Qed.

Lemma kbchange_in_unit (index : nat) (dir : Z) (demands : array float) :
  demands index <> S754_nan ->
  dir = 1 \/ dir = -1 ->
  in_unit (SimVrep.kbchange index dir demands index).
Proof.
  intros Hnan Hdir. unfold SimVrep.kbchange. cbv zeta. rewrite !upd_same.
  set (r := fadd (demands index) (fmul (float_of_int dir) SimVrep.KEYBOARD_INC)).
  assert (Hr : r <> S754_nan).
  { apply fadd_not_nan; [assumption|]. destruct Hdir as [-> | ->]; reflexivity. }
  destruct (fgtb r (float_of_int 1)) eqn:E1.
  - rewrite !upd_same.
    change (fltb (float_of_int 1) (float_of_int (-1))) with false.
    cbv iota. rewrite upd_same. split; reflexivity.
  - rewrite !upd_same. destruct (fltb r (float_of_int (-1))) eqn:E2.
    + rewrite upd_same. split; reflexivity.
    + rewrite upd_same. now apply not_outside_in_unit.
Qed.

(** X19. A key press moves a demand that is not a NaN to a value between
    -1 and 1 and leaves the other demands as they were. *)
Theorem kbchange_bounded (index : nat) (dir : Z) (demands : array float) :
  demands index <> S754_nan ->
  dir = 1 \/ dir = -1 ->
  in_unit (SimVrep.kbchange index dir demands index) /\
  (forall j, j <> index -> SimVrep.kbchange index dir demands j = demands j).
Proof.
  intros Hnan Hdir. split.
  - now apply kbchange_in_unit.
  - intros j Hj. now apply kbchange_other.
Qed.

Lemma kbchange_bounded_witness :
  let demands := upd fzeros 3 (float_of_int 1) in
  in_unit (SimVrep.kbchange 3 1 demands 3%nat) /\
  (forall j, j <> 3%nat -> SimVrep.kbchange 3 1 demands j = demands j).
Proof.
  intros demands.
  apply (kbchange_bounded 3 1 demands).
  - vm_compute. discriminate.
  - left. reflexivity.
Defined.

Lemma fold_left_inv {A B : Type} (P : A -> Prop) (f : A -> B -> A) (l : list B) (a : A) :
  P a -> (forall a b, In b l -> P a -> P (f a b)) -> P (fold_left f l a).
Proof.
  revert a. induction l as [|b l IH]; intros a Ha Hstep.
  - exact Ha.
  - cbn [fold_left]. apply IH.
    + apply Hstep; [left; reflexivity | assumption].
    + intros a' b' Hb'. apply Hstep. right. assumption.
Qed.

Lemma half_below_4 (k : nat) : In k (seq 0 8) -> (Nat.div k 2 < 4)%nat.
Proof.
  intros Hk. apply in_seq in Hk.
  apply Nat.Div0.div_lt_upper_bound. lia.
Qed.

(** X20. [kbRespond] only ever moves the four stick demands: the fifth
    (the aux switch) is never touched, a key that is in no slot changes
    nothing, and four stick demands that lie between -1 and 1 still do
    after any key. *)
Theorem kbRespond_keeps_demands (key : Z) (keys : array Z) (demands : array float) :
  (forall j, (4 <= j)%nat -> SimVrep.kbRespond key keys demands j = demands j) /\
  ((forall k, (k < 8)%nat -> keys k <> key) ->
   forall j, SimVrep.kbRespond key keys demands j = demands j) /\
  ((forall j, (j < 4)%nat -> in_unit (demands j)) ->
   forall j, (j < 4)%nat -> in_unit (SimVrep.kbRespond key keys demands j)).
Proof.
  unfold SimVrep.kbRespond. split; [|split].
  - apply (fold_left_inv (fun d => forall j, (4 <= j)%nat -> d j = demands j)).
    + reflexivity.
    + intros d k Hk Hd j Hj. pose proof (half_below_4 k Hk).
      destruct (key =? keys k); [|now apply Hd].
      destruct (Nat.odd k); unfold SimVrep.kbincrement, SimVrep.kbdecrement;
        rewrite kbchange_other by lia; now apply Hd.
  - intros Hkeys.
    apply (fold_left_inv (fun d => forall j, d j = demands j)).
    + reflexivity.
    + intros d k Hk Hd j. apply in_seq in Hk.
      destruct (key =? keys k) eqn:E; [|apply Hd].
      apply Z.eqb_eq in E. exfalso. apply (Hkeys k); [lia | congruence].
  - intros Hin.
    apply (fold_left_inv (fun d => forall j, (j < 4)%nat -> in_unit (d j))).
    + exact Hin.
    + intros d k Hk Hd j Hj. pose proof (half_below_4 k Hk) as Hidx.
      destruct (key =? keys k); [|now apply Hd].
      assert (Hchange : forall dir, dir = 1 \/ dir = -1 ->
                                    in_unit (SimVrep.kbchange (Nat.div k 2) dir d j)).
      { intros dir Hdir. destruct (Nat.eq_dec j (Nat.div k 2)) as [-> | Hne].
        - apply kbchange_in_unit; [|assumption].
          apply in_unit_not_nan. now apply Hd.
        - rewrite kbchange_other by assumption. now apply Hd. }
      destruct (Nat.odd k); unfold SimVrep.kbincrement, SimVrep.kbdecrement;
        apply Hchange; auto.
Qed.

(** ** Reading a stick *)

Lemma float_of_int_finite (a : Z) : Z.abs a < 2 ^ 24 -> is_finite (float_of_int a) = true.
Proof.
  intros Ha. destruct (float_of_int_cases a Ha) as [[-> ->] | (s & n & -> & Hn & ->)];
    reflexivity.
Qed.

Lemma fadd_zero_r (a : Z) :
  Z.abs a < 2 ^ 24 -> fadd (float_of_int a) (S754_zero false) = float_of_int a.
Proof.
  intros Ha. destruct (float_of_int_cases a Ha) as [[-> ->] | (s & n & -> & Hn & ->)];
    reflexivity.
Qed.

Lemma fmul_zero_int (a : Z) :
  0 <= a < 2 ^ 24 -> fmul (S754_zero false) (float_of_int a) = S754_zero false.
Proof.
  intros Ha.
  destruct (float_of_int_cases a ltac:(lia)) as [[-> ->] | (s & n & E & Hn & ->)].
  - reflexivity.
  - destruct s; [cbn in E; lia | reflexivity].
Qed.

Lemma fmul_plus1_l (a : Z) :
  Z.abs a < 2 ^ 24 -> fmul Mixer.plus1 (float_of_int a) = float_of_int a.
Proof.
  intros Ha.
  destruct (float_of_int_cases a Ha) as [[-> Ea] | (s & n & -> & Hn & Ea)].
  - reflexivity.
  - rewrite Ea. pose proof (digits_le_24 n Hn) as Hd.
    unfold canon at 1. unfold fmul, SFmul, Mixer.plus1.
    replace (-23 + (Zpos (digits2_pos n) - 24)) with (- (47 - Zpos (digits2_pos n))) by lia.
    rewrite xorb_false_l.
    apply binary_round_aux_exact; try assumption; try lia.
    rewrite Pos2Z.inj_mul, canon_mantissa by assumption.
    change (Zpos 8388608) with (2 ^ 23).
    rewrite (Z.mul_comm (2 ^ 23)), <- Z.mul_assoc, <- Z.pow_add_r by lia.
    f_equal. f_equal. lia.
Qed.

(** The stick a channel reads: the throttle demand on channel 3, the demand
    of the channel otherwise. *)
Lemma rcReadPwm_unscaled (controller : controller_t) (demands : array float)
      (throttleDemand : float) (pwmMin pwmMax : Z) (chan : nat) :
  (2 <= chan)%nat \/ controller = OTHER_CONTROLLER ->
  SimVrep.rcReadPwm controller demands throttleDemand pwmMin pwmMax chan =
  to_uint16
    (int32_of_float
       (fadd (float_of_int pwmMin)
             (fmul (fdiv (fadd (if Nat.eqb chan 3 then throttleDemand else demands chan)
                               (float_of_int 1))
                         (float_of_int 2))
                   (float_of_int (pwmMax - pwmMin))))).
Proof.
  intros H. unfold SimVrep.rcReadPwm. cbv zeta.
  destruct (Nat.ltb chan 2) eqn:E; [|reflexivity].
  apply Nat.ltb_lt in E. destruct H as [H | ->]; [lia | reflexivity].
Qed.

(** X21. On a channel that is not rescaled for the controller (yaw,
    throttle, aux, or any channel of a controller other than PS3 and
    XBOX360), [rcReadPwm] maps the ends of the stick range onto the ends of
    the PWM range: a stick at -1 reads the PWM minimum, a stick at +1 the
    PWM maximum. *)
Theorem rcReadPwm_endpoints (controller : controller_t) (demands : array float)
        (throttleDemand : float) (pwmMin pwmMax : Z) (chan : nat) :
  let stick := if Nat.eqb chan 3 then throttleDemand else demands chan in
  let pwm := SimVrep.rcReadPwm controller demands throttleDemand pwmMin pwmMax chan in
  (2 <= chan)%nat \/ controller = OTHER_CONTROLLER ->
  in_uint16 pwmMin -> in_uint16 pwmMax -> pwmMin <= pwmMax ->
  (stick = float_of_int (-1) -> pwm = pwmMin) /\
  (stick = float_of_int 1 -> pwm = pwmMax).
Proof.
  intros stick pwm Hchan Hmin Hmax Hle. subst pwm.
  rewrite rcReadPwm_unscaled by assumption. fold stick.
  unfold in_uint16 in *. change (2 ^ 24) with 16777216 in *.
  split; intros ->.
  - change (fdiv (fadd (float_of_int (-1)) (float_of_int 1)) (float_of_int 2))
      with (S754_zero false).
    rewrite fmul_zero_int by (change (2 ^ 24) with 16777216; lia).
    rewrite fadd_zero_r by (change (2 ^ 24) with 16777216; lia).
    rewrite int32_of_float_of_int by (change (2 ^ 24) with 16777216; lia).
    unfold to_uint16. apply Z.mod_small. lia.
  - change (fdiv (fadd (float_of_int 1) (float_of_int 1)) (float_of_int 2))
      with Mixer.plus1.
    rewrite fmul_plus1_l by (change (2 ^ 24) with 16777216; lia).
    rewrite fadd_int by (change (2 ^ 24) with 16777216; lia).
    rewrite int32_of_float_of_int by (change (2 ^ 24) with 16777216; lia).
    replace (pwmMin + (pwmMax - pwmMin)) with pwmMax by lia.
    unfold to_uint16. apply Z.mod_small. lia.
Qed.

Lemma rcReadPwm_endpoints_witness :
  let demands := upd fzeros 2 (float_of_int 1) in
  let pwm := SimVrep.rcReadPwm PS3 demands (float_of_int (-1)) 1000 2000 2 in
  (demands 2%nat = float_of_int (-1) -> pwm = 1000) /\
  (demands 2%nat = float_of_int 1 -> pwm = 2000).
Proof.
  intros demands.
  apply (rcReadPwm_endpoints PS3 demands (float_of_int (-1)) 1000 2000 2).
  - left. lia.
  - vm_compute. split; discriminate.
  - vm_compute. split; discriminate.
  - vm_compute. discriminate.
Defined.

Lemma kbRespond_keeps_demands_witness :
  let keys := fun k => 65 + Z.of_nat k in
  let demands := upd (upd fzeros 1 (float_of_int 1)) 3 (float_of_int (-1)) in
  in_unit (SimVrep.kbRespond 68 keys demands 1%nat).
Proof.
  intros keys demands.
  apply (proj2 (proj2 (kbRespond_keeps_demands 68 keys demands))).
  - intros j Hj. destruct j as [|[|[|[|j]]]]; [| | | |lia]; split; reflexivity.
  - lia.
Defined.

(** ** Thrusts *)

Lemma Zrange_In (n : nat) (lo z : Z) :
  lo <= z < lo + Z.of_nat n -> In z (Zrange lo n).
Proof.
  revert lo. induction n as [|n IH]; intros lo Hz.
  - simpl in Hz. lia.
  - cbn [Zrange]. assert (z = lo \/ lo + 1 <= z) as [-> | Hgt] by lia.
    + left. reflexivity.
    + right. apply IH. lia.
Qed.

Lemma thrust_checked : forallb thrust_in_unit (Zrange 1000 1001) = true.
Proof. vm_compute. reflexivity. Qed.

Lemma writeMotor_in_unit (index : nat) (value : Z) (thrusts : array float) :
  1000 <= value <= 2000 ->
  in_unit_nonneg (SimVrep.writeMotor index value thrusts index).
Proof.
  intros Hv. unfold SimVrep.writeMotor. rewrite upd_same.
  pose proof thrust_checked as Hall. rewrite forallb_forall in Hall.
  specialize (Hall value (Zrange_In 1001 1000 value ltac:(lia))).
  unfold thrust_in_unit, SimVrep.writeMotor in Hall. cbv zeta in Hall.
  rewrite upd_same in Hall. apply andb_true_iff in Hall. exact Hall.
Qed.

Lemma writeMotor_other (index j : nat) (value : Z) (thrusts : array float) :
  j <> index -> SimVrep.writeMotor index value thrusts j = thrusts j.
Proof. intros Hj. unfold SimVrep.writeMotor. now apply upd_other. Qed.

(** X22. [writeMotor] turns every command between 1000 and 2000 into a
    thrust between 0 and 1, and changes the thrust of no other motor. *)
Theorem writeMotor_thrust_range (index : nat) (value : Z) (thrusts : array float) :
  1000 <= value <= 2000 ->
  in_unit_nonneg (SimVrep.writeMotor index value thrusts index) /\
  (forall j, j <> index -> SimVrep.writeMotor index value thrusts j = thrusts j).
Proof.
  intros Hv. split; [now apply writeMotor_in_unit|].
  intros j Hj. now apply writeMotor_other.
Qed.

Lemma writeMotor_thrust_range_witness :
  in_unit_nonneg (SimVrep.writeMotor 2 1600 fzeros 2%nat) /\
  (forall j, j <> 2%nat -> SimVrep.writeMotor 2 1600 fzeros j = fzeros j).
Proof.
  apply (writeMotor_thrust_range 2 1600 fzeros).
  vm_compute. split; discriminate.
Defined.

Lemma motorCommand_armed_range (m : Mixer.t) (rc : RC) (mx v : Z) (i : nat) :
  in_int16 (min (Mixer.pwmConfig m)) ->
  in_int16 (max (Mixer.pwmConfig m)) ->
  min (Mixer.pwmConfig m) <= max (Mixer.pwmConfig m) ->
  min (Mixer.pwmConfig m) <= motorCommand m rc true mx v i <= max (Mixer.pwmConfig m).
Proof.
  intros Hmin Hmax Hle. unfold motorCommand. cbv [negb].
  destruct (throttleIsDown rc).
  - rewrite to_int16_id by assumption. lia.
  - pose proof (constrain_bounds (Mixer.redistribute m mx v) _ _ Hle) as Hc.
    rewrite to_int16_id; [exact Hc|]. unfold in_int16 in *. lia.
Qed.

(** X23. End to end: when the PWM range lies within 1000 to 2000, the four
    commands an armed [Mixer::update] hands to the simulator board leave all
    four thrusts between 0 and 1. *)
Theorem armed_thrusts_in_unit (m : Mixer.t) (rc : RC) (stabilize : Stabilize.t)
        (thrusts : array float) (i : nat) :
  1000 <= min (Mixer.pwmConfig m) ->
  min (Mixer.pwmConfig m) <= max (Mixer.pwmConfig m) ->
  max (Mixer.pwmConfig m) <= 2000 ->
  (i < 4)%nat ->
  in_unit_nonneg (SimVrep.writeMotors (Mixer.update m rc stabilize true) thrusts i).
Proof.
  intros Hlo Hle Hhi Hi. rewrite update_writes.
  set (cmd := fun k => motorCommand m rc true
                         (Mixer.maxMotor (Mixer.rawMotors m rc stabilize))
                         (Mixer.rawMotors m rc stabilize k) k).
  assert (Hcmd : forall k, 1000 <= to_uint16 (cmd k) <= 2000).
  { intros k.
    pose proof (motorCommand_armed_range m rc
                  (Mixer.maxMotor (Mixer.rawMotors m rc stabilize))
                  (Mixer.rawMotors m rc stabilize k) k) as H.
    fold (cmd k) in H. unfold in_int16 in H.
    specialize (H ltac:(lia) ltac:(lia) Hle).
    unfold to_uint16. rewrite Z.mod_small; lia. }
  unfold SimVrep.writeMotors. cbn [map fold_left fst snd]. fold (cmd 0%nat).
  fold (cmd 1%nat). fold (cmd 2%nat). fold (cmd 3%nat).
  destruct i as [|[|[|[|i]]]]; [| | | |lia];
    rewrite ?writeMotor_other by lia; apply writeMotor_in_unit; apply Hcmd.
Qed.

Lemma armed_thrusts_in_unit_witness :
  in_unit_nonneg
    (SimVrep.writeMotors (Mixer.update simMixer saturatingRC saturatingStabilize true)
                         fzeros 1%nat).
Proof.
  apply (armed_thrusts_in_unit simMixer saturatingRC saturatingStabilize fzeros 1).
  - vm_compute. discriminate.
  - vm_compute. discriminate.
  - vm_compute. discriminate.
  - lia.
Defined.

(** ** Normalising a vector *)

(** X24. [normalizeV] leaves the destination untouched when the source is
    the zero vector, whatever the signs of its zeros: the division by a zero
    length is never made. *)
Theorem normalizeV_zero (src dest : array float) :
  is_zero (src 0%nat) = true ->
  is_zero (src 1%nat) = true ->
  is_zero (src 2%nat) = true ->
  SimVrep.normalizeV src dest = dest.
Proof.
  intros H0 H1 H2. unfold SimVrep.normalizeV. cbv zeta.
  destruct (src 0%nat) as [s0| | |]; try discriminate H0.
  destruct (src 1%nat) as [s1| | |]; try discriminate H1.
  destruct (src 2%nat) as [s2| | |]; try discriminate H2.
  destruct s0, s1, s2; reflexivity.
Qed.

Lemma normalizeV_zero_witness :
  SimVrep.normalizeV (upd fzeros 1 (S754_zero true)) (upd fzeros 0 (float_of_int 1))
  = upd fzeros 0 (float_of_int 1).
Proof.
  apply normalizeV_zero; reflexivity.
Defined.
